(** * Location registry and resolver of the glyph dispenser

    A shallow embedding of [location_lookup.py]: the registry operations
    ([load_locations], [save_locations], [register_location],
    [modify_location], [list_top_locations]) and the resolver
    ([find_location_in_string]).

    Modelling choices.
    - Python [str] values are [string]s of ASCII characters; [str.lower],
      [str.split()] and the [in] substring test are written out below.
    - The registry is a Python [dict] loaded from JSON: an insertion-ordered
      mapping, modelled as an association list whose order is the iteration
      order of the dict.
    - The backing file and the effects on it are threaded explicitly through a
      small state-and-exception monad [M].
    - Every function is modelled with [logger=None] (its default), so the
      [if logger:] branches are not taken.
    - The fuzzy scorers of the [fuzzywuzzy] package are an interface
      ([Scorer]); a reference instance is used for concrete runs. *)

From Stdlib Require Import String Ascii List ZArith Lia Bool Arith.
From Stdlib Require Import Permutation Sorted.
From Stdlib Require Import DecimalString.
Import ListNotations.

Open Scope string_scope.
Open Scope list_scope.
Open Scope Z_scope.

(** ** Python strings *)

Module PyStr.

(** [c.lower()] on an ASCII character. *)
Definition lower_char (c : ascii) : ascii :=
  let n := nat_of_ascii c in
  if ((65 <=? n) && (n <=? 90))%nat then ascii_of_nat (n + 32) else c.

(** [s.lower()] *)
Fixpoint lower (s : string) : string :=
  match s with
  | EmptyString => EmptyString
  | String c s' => String (lower_char c) (lower s')
  end.

(** [c.isspace()] for ASCII: tab, newline, vertical tab, form feed,
    carriage return, the four separators 0x1c-0x1f and the space. *)
Definition isspace (c : ascii) : bool :=
  let n := nat_of_ascii c in
  (((9 <=? n) && (n <=? 13)) || ((28 <=? n) && (n <=? 32)))%nat.

(** [needle in hay] for strings. *)
Fixpoint contains (hay needle : string) : bool :=
  String.prefix needle hay
  || match hay with
     | EmptyString => false
     | String _ hay' => contains hay' needle
     end.

(** [s.split()]: the maximal runs of non-whitespace characters, in order.
    [cur] is the word being read, if any. *)
Fixpoint split_from (cur : option string) (s : string) : list string :=
  match s with
  | EmptyString =>
      match cur with Some w => [w] | None => [] end
  | String c s' =>
      if isspace c then
        match cur with
        | Some w => w :: split_from None s'
        | None => split_from None s'
        end
      else
        split_from
          (Some (match cur with
                 | Some w => (w ++ String c EmptyString)%string
                 | None => String c EmptyString
                 end)) s'
  end.

Definition split (s : string) : list string := split_from None s.

(** [s.strip()] *)
Fixpoint lstrip (s : string) : string :=
  match s with
  | String c s' => if isspace c then lstrip s' else s
  | EmptyString => EmptyString
  end.

Fixpoint rstrip (s : string) : string :=
  match s with
  | EmptyString => EmptyString
  | String c s' =>
      match rstrip s' with
      | EmptyString => if isspace c then EmptyString else String c EmptyString
      | t => String c t
      end
  end.

Definition strip (s : string) : string := rstrip (lstrip s).

(** [x in xs] for a list of strings. *)
Definition mem (x : string) (xs : list string) : bool :=
  existsb (String.eqb x) xs.

End PyStr.

(** ** Records and the registry dict *)

Record Location : Type := mkLocation
  { galaxy : string;
    address : string;
    num_returns : Z;
    description : string }.

(** The registry: name to record, in dict iteration order. *)
Definition Locations : Type := list (string * Location).

Module PyDict.

Definition keys (d : Locations) : list string := map fst d.
Definition values (d : Locations) : list Location := map snd d.

(** [d.get(k)] *)
Fixpoint get (d : Locations) (k : string) : option Location :=
  match d with
  | [] => None
  | (k', v) :: d' => if String.eqb k k' then Some v else get d' k
  end.

(** [k in d] *)
Definition mem (d : Locations) (k : string) : bool :=
  match get d k with Some _ => true | None => false end.

(** [d[k] = v]: an existing key keeps its position, a new key goes last. *)
Fixpoint set (d : Locations) (k : string) (v : Location) : Locations :=
  match d with
  | [] => [(k, v)]
  | (k', v') :: d' =>
      if String.eqb k k' then (k', v) :: d' else (k', v') :: set d' k v
  end.

End PyDict.

(** ** The backing file and the effect monad *)

(** Exceptions that the modelled code can meet. *)
Inductive exn : Type :=
| FileNotFoundError
| PermissionError
| UnicodeDecodeError
| JSONDecodeError
| ValueError
| TypeError
| KeyError
| IndexError.

(** What [open(filename, 'r')] followed by [json.load] finds. *)
Inductive FileState : Type :=
| Absent                      (* no such file *)
| Unreadable                  (* the file exists but may not be opened *)
| Undecodable                 (* the bytes are not text in the locale's encoding *)
| Garbled                     (* text that is not JSON *)
| Stored (locs : Locations).  (* a JSON object of location records *)

Record World : Type := mkWorld
  { file : FileState;
    writable : bool;     (* may the directory and the file be written? *)
    writes : nat }.      (* number of completed saves *)

Inductive outcome (A : Type) : Type :=
| Ok (a : A)
| Raise (e : exn).
Arguments Ok {A} a.
Arguments Raise {A} e.

Definition M (A : Type) : Type := World -> outcome A * World.

Definition ret {A} (a : A) : M A := fun w => (Ok a, w).

Definition raise {A} (e : exn) : M A := fun w => (Raise e, w).

Definition bind {A B} (m : M A) (k : A -> M B) : M B :=
  fun w =>
    match m w with
    | (Ok a, w') => k a w'
    | (Raise e, w') => (Raise e, w')
    end.

(** [try: m  except <classes>: h]; [handles e] tells whether an [except]
    clause matches [e]. *)
Definition try_except {A} (m : M A) (handles : exn -> bool) (h : exn -> M A)
  : M A :=
  fun w =>
    match m w with
    | (Ok a, w') => (Ok a, w')
    | (Raise e, w') => if handles e then h e w' else (Raise e, w')
    end.

Declare Scope py_scope.
Delimit Scope py_scope with py.
Notation "x <- m ;; k" := (bind m (fun x => k))
  (at level 61, m at next level, right associativity) : py_scope.
Notation "m ;; k" := (bind m (fun _ => k))
  (at level 61, right associativity) : py_scope.
Open Scope py_scope.

(** The [with open(filename, 'r') as f: json.load(f)] block. *)
Definition read_json : M Locations :=
  fun w =>
    match file w with
    | Absent => (Raise FileNotFoundError, w)
    | Unreadable => (Raise PermissionError, w)
    | Undecodable => (Raise UnicodeDecodeError, w)
    | Garbled => (Raise JSONDecodeError, w)
    | Stored locs => (Ok locs, w)
    end.

Definition load_handles (e : exn) : bool :=
  match e with
  | FileNotFoundError => true
  | JSONDecodeError => true
  | _ => false
  end.

Definition load_locations : M Locations :=
  try_except read_json load_handles (fun _ => ret []).

(** [save_locations]: write a temporary file, move the old file aside, rename
    the temporary file into place, remove the backup.  A failure (modelled at
    the first step, opening the temporary file) is re-raised and leaves the
    file as it was. *)
Definition save_locations (locations : Locations) : M unit :=
  fun w =>
    if writable w then
      (Ok tt, {| file := Stored locations;
                 writable := true;
                 writes := S (writes w) |})
    else (Raise PermissionError, w).

(** ** Python values and [int()] *)

(** The dynamically typed arguments: [None], an [int] or a [str]. *)
Inductive pyval : Type :=
| PyNone
| PyInt (z : Z)
| PyStr (s : string).

Module PyInt.

Definition digit_of (c : ascii) : option Z :=
  let n := nat_of_ascii c in
  if ((48 <=? n) && (n <=? 57))%nat then Some (Z.of_nat (n - 48)) else None.

(** Decimal digits, single underscores allowed between two digits.
    [after_digit] tells whether the previous character was a digit. *)
Fixpoint digits (acc : Z) (after_digit : bool) (s : string) : option Z :=
  match s with
  | EmptyString => if after_digit then Some acc else None
  | String c s' =>
      match digit_of c with
      | Some d => digits (10 * acc + d) true s'
      | None =>
          if (Ascii.eqb c "_" && after_digit)%bool
          then digits acc false s'
          else None
      end
  end.

(** [int(s)] for a string: surrounding whitespace, an optional sign, then
    digits; [None] stands for [ValueError]. *)
Definition of_str (s : string) : option Z :=
  match PyStr.strip s with
  | String "+" t => digits 0 false t
  | String "-" t => option_map Z.opp (digits 0 false t)
  | t => digits 0 false t
  end.

End PyInt.

(** ** The fuzzy-matching library *)

(** The scorers of [fuzzywuzzy.fuzz] and the default processor of
    [fuzzywuzzy.process], which are not part of the repository. *)
Class Scorer : Type := mkScorer
  { ratio : string -> string -> Z;
    partial_ratio : string -> string -> Z;
    full_process : string -> string }.

(** Python's [max(scored, key=lambda i: i[1])]: the first element with the
    largest score. *)
Fixpoint max_by_score (best : string * Z) (l : list (string * Z))
  : string * Z :=
  match l with
  | [] => best
  | x :: l' =>
      if snd best <? snd x then max_by_score x l' else max_by_score best l'
  end.

(** Modelled from the spec: [process.extractOne(query, choices, scorer=...)]
    is a function of the fuzzywuzzy package, whose source is not in the
    repository.  It scores every choice against the query, keeps the scores
    of at least the cutoff 0 and returns the highest-scoring choice with its
    score, the first one among equals, or nothing when there is no choice.
    The package runs query and choices through its default processor before
    scoring; a [Scorer] whose [full_process] is the identity scores the
    strings as they are. *)
Definition extractOne `{Scorer} (scorer : string -> string -> Z)
    (query : string) (choices : list string) : option (string * Z) :=
  let processed_query := full_process query in
  let scored :=
    filter (fun cs => 0 <=? snd cs)
           (map (fun c => (c, scorer processed_query (full_process c)))
                choices) in
  match scored with
  | [] => None
  | x :: l => Some (max_by_score x l)
  end.

(** ** The resolver *)

Definition bump (loc : Location) : Location :=
  {| galaxy := galaxy loc;
     address := address loc;
     num_returns := num_returns loc + 1;
     description := description loc |}.

(** [d[k]], raising [KeyError] on a missing key. *)
Definition getitem (d : Locations) (k : string) : M Location :=
  match PyDict.get d k with
  | Some v => ret v
  | None => raise KeyError
  end.

(** [l[0]], raising [IndexError] on an empty list. *)
Definition first_item (l : list string) : M string :=
  match l with
  | x :: _ => ret x
  | [] => raise IndexError
  end.

(** The three lines shared by every successful pass:
    [locations[match_name]["num_returns"] += 1], [save_locations(locations)],
    [return locations[match_name]]. *)
Definition record_hit (locations : Locations) (match_name : string)
  : M (option Location) :=
  loc <- getitem locations match_name ;;
  let locations := PyDict.set locations match_name (bump loc) in
  save_locations locations ;;
  loc <- getitem locations match_name ;;
  ret (Some loc).

Section Resolver.

Context `{Scorer}.

(** The names appended to [matches] for one input word: one entry for every
    qualifying word of every location name. *)
Definition word_matches (threshold : Z) (location_names : list string)
    (word : string) : list string :=
  flat_map
    (fun loc_name =>
       flat_map
         (fun loc_word =>
            if threshold <=? ratio word loc_word then [loc_name] else [])
         (PyStr.split loc_name))
    location_names.

(** The [for word in input_words] loop of the single-word pass. *)
Fixpoint single_word_pass (locations : Locations) (threshold : Z)
    (input_words : list string) : M (option Location) :=
  match input_words with
  | [] => ret None
  | word :: rest =>
      let matches := word_matches threshold (PyDict.keys locations) word in
      if (length matches =? 1)%nat then
        m <- first_item matches ;;
        record_hit locations m
      else single_word_pass locations threshold rest
  end.

(** The guard of the full-phrase pass. *)
Definition phrase_guard (threshold : Z) (input_lower match_name : string)
  : bool :=
  let match_lower := PyStr.lower match_name in
  PyStr.contains input_lower match_lower
  || existsb (fun word => threshold <=? ratio word match_lower)
             (PyStr.split input_lower).

(** The full-phrase pass, falling through to the single-word pass. *)
Definition phrase_pass (locations : Locations) (threshold : Z)
    (input_lower : string) : M (option Location) :=
  let location_names := PyDict.keys locations in
  let best_match := extractOne partial_ratio input_lower location_names in
  let fall_through :=
    single_word_pass locations threshold (PyStr.split input_lower) in
  match best_match with
  | Some (match_name, score) =>
      if (threshold <=? score)
         && phrase_guard threshold input_lower match_name
      then record_hit locations match_name
      else fall_through
  | None => fall_through
  end.

Definition substring_matches (location_names : list string)
    (input_lower : string) : list string :=
  filter (fun name => PyStr.contains (PyStr.lower name) input_lower)
         location_names.

Definition find_location_in_string (input_string : pyval) (threshold : Z)
  : M (option Location) :=
  match input_string with
  | PyStr EmptyString => ret None
  | PyStr s =>
      locations <- load_locations ;;
      let input_lower := PyStr.lower s in
      let location_names := PyDict.keys locations in
      let substring_matches := substring_matches location_names input_lower in
      let n := length substring_matches in
      if ((1 <=? n) && (n <=? 2))%nat then
        match_name <- first_item substring_matches ;;
        record_hit locations match_name
      else phrase_pass locations threshold input_lower
  | _ => ret None
  end.

End Resolver.

(** ** Registry operations *)

(** [f"{galaxy}-{address}".lower()] *)
Definition pair_key (g a : string) : string := PyStr.lower (g ++ "-" ++ a)%string.

Definition loc_pair_key (i : Location) : string :=
  pair_key (galaxy i) (address i).

Definition register_location (name galaxy address description : string)
  : M bool :=
  locations <- load_locations ;;
  if PyStr.mem (PyStr.lower name) (map PyStr.lower (PyDict.keys locations))
     || PyStr.mem (pair_key galaxy address)
                  (map loc_pair_key (PyDict.values locations))
  then ret false
  else
    let locations :=
      PyDict.set locations name
        {| galaxy := galaxy; address := address;
           num_returns := 0; description := description |} in
    save_locations locations ;;
    ret true.

(** [sorted(items, key=..., reverse=True)]: a stable sort, records with equal
    keys keep their original order. *)
Fixpoint insert_desc {A} (key : A -> Z) (x : A) (l : list A) : list A :=
  match l with
  | [] => [x]
  | y :: l' =>
      if key x <? key y then y :: insert_desc key x l' else x :: l
  end.

Fixpoint sorted_desc {A} (key : A -> Z) (l : list A) : list A :=
  match l with
  | [] => []
  | x :: l' => insert_desc key x (sorted_desc key l')
  end.

(** The slice [l[:n]]; a negative [n] counts from the end. *)
Definition slice_to {A} (l : list A) (n : Z) : list A :=
  if 0 <=? n then firstn (Z.to_nat n) l
  else firstn (Z.to_nat (Z.of_nat (length l) + n)) l.

(** [int(num)], raising [ValueError] or [TypeError]. *)
Definition py_int (num : pyval) : M Z :=
  match num with
  | PyInt z => ret z
  | PyStr s =>
      match PyInt.of_str s with
      | Some z => ret z
      | None => raise ValueError
      end
  | PyNone => raise TypeError
  end.

Definition int_handles (e : exn) : bool :=
  match e with
  | ValueError => true
  | TypeError => true
  | _ => false
  end.

(** An element of the result of [list_top_locations]:
    [dict(name=name, **data)]. *)
Record Entry : Type := mkEntry
  { entry_name : string;
    entry_data : Location }.

Definition list_top_locations (num : pyval) : M (list Entry) :=
  n <- try_except (py_int num) int_handles (fun _ => ret 0) ;;
  locations <- load_locations ;;
  let sorted_locs :=
    sorted_desc (fun x : string * Location => num_returns (snd x)) locations in
  ret (map (fun x => mkEntry (fst x) (snd x)) (slice_to sorted_locs n)).

Definition is_some {A} (o : option A) : bool :=
  match o with Some _ => true | None => false end.

Definition with_galaxy (loc : Location) (g : string) : Location :=
  {| galaxy := g; address := address loc;
     num_returns := num_returns loc; description := description loc |}.

Definition with_address (loc : Location) (a : string) : Location :=
  {| galaxy := galaxy loc; address := a;
     num_returns := num_returns loc; description := description loc |}.

Definition with_description (loc : Location) (d : string) : Location :=
  {| galaxy := galaxy loc; address := address loc;
     num_returns := num_returns loc; description := d |}.

(** [if new is not None: loc[field] = new] *)
Definition assign_if (upd : Location -> string -> Location)
    (new : option string) (loc : Location) : Location :=
  match new with
  | Some v => upd loc v
  | None => loc
  end.

(** [loc] is the record object stored in [locations], so the assignments to
    its fields change [locations] itself; the model writes the updated record
    back under the key it was read from. *)
Definition modify_location (name old_galaxy old_address : string)
    (new_galaxy new_address new_description : option string) : M bool :=
  locations <- load_locations ;;
  let name_lower := PyStr.lower name in
  if negb (PyDict.mem locations name_lower) then ret false
  else
    loc <- getitem locations name_lower ;;
    if negb (galaxy loc =? old_galaxy)%string
       || negb (address loc =? old_address)%string
    then ret false
    else
      let loc := assign_if with_galaxy new_galaxy loc in
      let loc := assign_if with_address new_address loc in
      let loc := assign_if with_description new_description loc in
      let locations := PyDict.set locations name_lower loc in
      (if is_some new_galaxy || is_some new_address
          || is_some new_description
       then save_locations locations
       else ret tt) ;;
      ret true.

(** ** A reference scorer

    An instance of the [Scorer] interface for concrete runs.  [ratio] is the
    similarity [2 * M / T] in percent, with [T] the total length of the two
    strings and [M] the length of their longest common subsequence (the
    normalised insert/delete distance that fuzzywuzzy reports when backed by
    python-Levenshtein); [partial_ratio] is the best [ratio] of the shorter
    string against the windows of its length in the longer one;
    [full_process] blanks everything but letters, digits and underscores,
    lower-cases and strips. *)

Module RefScorer.

Fixpoint lcs_row (x : ascii) (b : list ascii) (prev : list nat)
    (diag left : nat) : list nat :=
  match b, prev with
  | y :: b', up :: prev' =>
      let cur := if Ascii.eqb x y then S diag else Nat.max up left in
      cur :: lcs_row x b' prev' up cur
  | _, _ => []
  end.

(** Length of the longest common subsequence, row by row. *)
Definition lcs (a b : string) : nat :=
  let lb := list_ascii_of_string b in
  last (fold_left (fun row x => lcs_row x lb row 0%nat 0%nat)
                  (list_ascii_of_string a)
                  (repeat 0%nat (List.length lb)))
       0%nat.

(** [int(round(num / den))], Python's round-half-to-even. *)
Definition round_div (num den : Z) : Z :=
  let q := num / den in
  let r := num mod den in
  if 2 * r <? den then q
  else if den <? 2 * r then q + 1
  else if Z.even q then q else q + 1.

Definition ratio (s1 s2 : string) : Z :=
  match s1, s2 with
  | EmptyString, _ => 0
  | _, EmptyString => 0
  | _, _ =>
      round_div (200 * Z.of_nat (lcs s1 s2))
                (Z.of_nat (String.length s1 + String.length s2))
  end.

(** The substrings of [s] of length [n], from left to right. *)
Fixpoint windows (n : nat) (s : string) : list string :=
  if (String.length s <? n)%nat then []
  else
    String.substring 0 n s
    :: match s with
       | EmptyString => []
       | String _ s' => windows n s'
       end.

Definition partial_ratio (s1 s2 : string) : Z :=
  if String.eqb s1 s2 then 100
  else
    match s1, s2 with
    | EmptyString, _ => 0
    | _, EmptyString => 0
    | _, _ =>
        let '(shorter, longer) :=
          if (String.length s1 <=? String.length s2)%nat
          then (s1, s2) else (s2, s1) in
        fold_left Z.max
                  (map (ratio shorter) (windows (String.length shorter) longer))
                  0
    end.

Definition is_word_char (c : ascii) : bool :=
  let n := nat_of_ascii c in
  (((48 <=? n) && (n <=? 57)) || ((65 <=? n) && (n <=? 90))
   || ((97 <=? n) && (n <=? 122)) || (n =? 95))%nat.

Fixpoint blank_non_word (s : string) : string :=
  match s with
  | EmptyString => EmptyString
  | String c s' =>
      String (if is_word_char c then c else " "%char) (blank_non_word s')
  end.

Definition full_process (s : string) : string :=
  PyStr.strip (PyStr.lower (blank_non_word s)).

#[export] Instance scorer : Scorer :=
  mkScorer ratio partial_ratio full_process.

End RefScorer.

(** ** More of Python's text operations *)

Module PyText.

(** [c.upper()] on an ASCII character. *)
Definition upper_char (c : ascii) : ascii :=
  let n := nat_of_ascii c in
  if ((97 <=? n) && (n <=? 122))%nat then ascii_of_nat (n - 32) else c.

(** [s.upper()] *)
Fixpoint upper (s : string) : string :=
  match s with
  | EmptyString => EmptyString
  | String c s' => String (upper_char c) (upper s')
  end.

(** [s.capitalize()]: the first character upper-cased, the rest
    lower-cased. *)
Definition capitalize (s : string) : string :=
  match s with
  | EmptyString => EmptyString
  | String c s' => String (upper_char c) (PyStr.lower s')
  end.

(** An ASCII decimal digit. *)
Definition isdigit_char (c : ascii) : bool :=
  let n := nat_of_ascii c in ((48 <=? n) && (n <=? 57))%nat.

(** [s.isdigit()]: not empty and digits only. *)
Definition isdigit (s : string) : bool :=
  match s with
  | EmptyString => false
  | _ => forallb isdigit_char (list_ascii_of_string s)
  end.

(** [c in s] for a single character [c]. *)
Definition char_in (c : ascii) (s : string) : bool :=
  existsb (Ascii.eqb c) (list_ascii_of_string s).

(** [str(n)] for an integer. *)
Definition str_of_int (n : Z) : string :=
  NilZero.string_of_int (Z.to_int n).

(** The longest prefix of characters satisfying [p], and what follows. *)
Fixpoint span (p : ascii -> bool) (s : string) : string * string :=
  match s with
  | EmptyString => (EmptyString, EmptyString)
  | String c s' =>
      if p c then let (a, b) := span p s' in (String c a, b)
      else (EmptyString, s)
  end.

(** [s[n:]] *)
Fixpoint drop (n : nat) (s : string) : string :=
  match n, s with
  | S k, String _ s' => drop k s'
  | _, _ => s
  end.

(** [s.replace(old, "")] for a non-empty [old]: every occurrence of [old],
    found from left to right without overlap, is removed.  [skip] counts the
    characters of the current occurrence still to be dropped. *)
Fixpoint remove_from (old : string) (skip : nat) (s : string) : string :=
  match s with
  | EmptyString => EmptyString
  | String c s' =>
      match skip with
      | S k => remove_from old k s'
      | O =>
          if String.prefix old s
          then remove_from old (String.length old - 1) s'
          else String c (remove_from old 0 s')
      end
  end.

Definition remove_all (old s : string) : string := remove_from old 0 s.

(** [s.split(sep)] for a one-character separator: the pieces between the
    separators, empty pieces included. *)
Fixpoint split_on (sep : ascii) (s : string) : list string :=
  match s with
  | EmptyString => [EmptyString]
  | String c s' =>
      if Ascii.eqb c sep then EmptyString :: split_on sep s'
      else
        match split_on sep s' with
        | piece :: pieces => String c piece :: pieces
        | [] => [String c EmptyString]
        end
  end.

(** [c * n] for a character [c]. *)
Fixpoint times (c : ascii) (n : nat) : string :=
  match n with
  | O => EmptyString
  | S k => String c (times c k)
  end.

(** [f"{s:<{width}}"]: [s] padded with spaces on the right to [width]
    characters, never cut. *)
Definition ljust (s : string) (width : nat) : string :=
  (s ++ times " " (width - String.length s))%string.

(** [sep.join(pieces)] *)
Fixpoint join (sep : string) (pieces : list string) : string :=
  match pieces with
  | [] => EmptyString
  | [piece] => piece
  | piece :: rest => (piece ++ sep ++ join sep rest)%string
  end.

End PyText.

(** ** Addresses ([ggf_glyph_dispener.py]) *)

Definition validate_address (address : string) : bool :=
  if negb (String.length address =? 12)%nat
     || negb (forallb (fun c => PyText.char_in c "0123456789ABCDEFabcdef")
                      (list_ascii_of_string address))
  then false
  else
    match address with
    | String first _ =>
        if negb (PyText.char_in first "123456") then false else true
    | EmptyString => false    (* [address[0]]: not reached, the length is 12 *)
    end.

(** The test of the lookup loop:
    [loc_data["galaxy"] == galaxy and loc_data["address"] == address]. *)
Definition has_pair (g a : string) (loc_data : Location) : bool :=
  (galaxy loc_data =? g)%string && (address loc_data =? a)%string.

Definition find_location_by_galaxy_address (galaxy address : string)
  : M (option Location) :=
  locations <- load_locations ;;
  ret (find (has_pair galaxy address) (PyDict.values locations)).

(** ** Galaxy designators ([ggf_bot_utils.py]) *)

(** The pattern [galaxy\s+(\d+)] matched at the start of [s]; the result is
    group 1.  Both repetitions are greedy, and since no character is both
    white space and a digit the match at a position is unique. *)
Definition match_galaxy_here (s : string) : option string :=
  if String.prefix "galaxy" s then
    let (spaces, rest) := PyText.span PyStr.isspace (PyText.drop 6 s) in
    match spaces with
    | EmptyString => None
    | _ =>
        let (digits, _) := PyText.span PyText.isdigit_char rest in
        match digits with
        | EmptyString => None
        | _ => Some digits
        end
    end
  else None.

(** [re.search(r'galaxy\s+(\d+)', s)]: the match at the leftmost position
    that has one. *)
Fixpoint search_galaxy (s : string) : option string :=
  match match_galaxy_here s with
  | Some digits => Some digits
  | None =>
      match s with
      | EmptyString => None
      | String _ s' => search_galaxy s'
      end
  end.

Definition known_galaxies : list (string * Z) :=
  [("euclid", 1);
   ("hilbert dimension", 2);
   ("calypso", 3);
   ("hesperius dimension", 4);
   ("hyades", 5);
   ("i've lost count", 256)].

(** The result triple [(is_galaxy, galaxy_name, galaxy_id)]. *)
Definition GalaxyCheck : Type := (bool * option string * option Z)%type.

(** The loop over the table of known names. *)
Definition check_known_galaxies (text_lower : string) : GalaxyCheck :=
  match find (fun entry => PyStr.contains text_lower (fst entry))
             known_galaxies with
  | Some (name, gal_id) => (true, Some (PyText.capitalize name), Some gal_id)
  | None => (false, None, None)
  end.

Definition check_galaxy_mention (text : string) : outcome GalaxyCheck :=
  let text_lower := PyStr.lower text in
  match search_galaxy text_lower with
  | Some digits =>
      match PyInt.of_str digits with
      | Some gal_id =>
          if (1 <=? gal_id) && (gal_id <=? 256)
          then Ok (true,
                   Some ("Galaxy " ++ PyText.str_of_int gal_id)%string,
                   Some gal_id)
          else Ok (check_known_galaxies text_lower)
      | None => Raise ValueError
      end
  | None => Ok (check_known_galaxies text_lower)
  end.

(** ** Glyph URLs ([ggf_glyph_dispener.py]) *)

Definition glyph_url_prefix : string := "https://glyphs.had.sh/".

Definition parse_glyph_url (url : string) : outcome (option (string * string)) :=
  if negb (String.prefix glyph_url_prefix url) then Ok None
  else
    let parts := PyText.split_on "_" (PyText.remove_all glyph_url_prefix url) in
    match parts with
    | [part0; part1] =>
        if negb (validate_address part1) then Ok None
        else
          match check_galaxy_mention ("galaxy " ++ part0)%string with
          | Ok (is_gal, _, gal_id) =>
              if negb is_gal then Ok None
              else
                match gal_id with
                | Some n => Ok (Some (PyText.str_of_int n, part1))
                | None => Ok (Some ("None", part1))
                end
          | Raise e => Raise e
          end
    | _ => Ok None
    end.

(** ** The table of locations ([location_lookup.py]) *)

(** The newline character. *)
Definition newline : string := String (ascii_of_nat 10) EmptyString.

(** One row of the table. *)
Definition format_row (max_name : nat) (loc : Entry) : string :=
  (PyText.ljust (entry_name loc) max_name ++ "  "
   ++ PyText.ljust (galaxy (entry_data loc)) 6 ++ "  "
   ++ PyText.ljust (address (entry_data loc)) 12 ++ "  "
   ++ PyText.ljust (PyText.str_of_int (num_returns (entry_data loc))) 7
   ++ "  " ++ description (entry_data loc))%string.

Definition format_locations_list (locations : list Entry) : string :=
  match locations with
  | [] => "No locations to display."
  | _ =>
      let max_name :=
        list_max (map (fun loc => String.length (entry_name loc)) locations) in
      let max_galaxy := 6%nat in
      let max_address := 12%nat in
      let max_returns := 7%nat in
      let header :=
        (PyText.ljust "Name" max_name ++ "  "
         ++ PyText.ljust "Galaxy" max_galaxy ++ "  "
         ++ PyText.ljust "Address" max_address ++ "  "
         ++ PyText.ljust "Returns" max_returns ++ "  Description"
         ++ newline)%string in
      let separator :=
        (PyText.times "-"
           (max_name + max_galaxy + max_address + max_returns + 20)
         ++ newline)%string in
      (header ++ separator
       ++ PyText.join newline (map (format_row max_name) locations))%string
  end.

(** ** The forms that write the registry ([ggf_glyph_dispener.py])

    [on_submit] of a form is modelled as a function of the values of its
    fields; the text passed to [interaction.response.send_message] is the
    result, and the file of the channel is the file of the world. *)

(** An [outcome] computed without touching the world. *)
Definition lift {A} (o : outcome A) : M A := fun w => (o, w).

(** [str(x)] for an optional string: [None] prints as ["None"]. *)
Definition str_of_optional (o : option string) : string :=
  match o with Some s => s | None => "None" end.

(** [x or default] for a string: the empty string is false. *)
Definition or_default (x default : string) : string :=
  match x with EmptyString => default | _ => x end.

(** [f"galaxy {galaxy_input}" if galaxy_input.isdigit() else galaxy_input] *)
Definition galaxy_check_input (galaxy_input : string) : string :=
  if PyText.isdigit galaxy_input
  then ("galaxy " ++ galaxy_input)%string
  else galaxy_input.

Module PyDictMore.

(** [del d[k]] for a key that is present. *)
Fixpoint delete (d : Locations) (k : string) : Locations :=
  match d with
  | [] => []
  | (k', v) :: d' =>
      if String.eqb k k' then d' else (k', v) :: delete d' k
  end.

End PyDictMore.

Definition AddModal_on_submit
    (name_value galaxy_value address_value description_value : string)
  : M string :=
  let name := name_value in
  let galaxy_input := galaxy_value in
  let address := PyText.upper address_value in
  let description := or_default description_value "No description provided" in
  checked <- lift (check_galaxy_mention (galaxy_check_input galaxy_input)) ;;
  match checked with
  | (false, _, _) => ret "Galaxy must be 1-256 or a valid name."
  | (true, _, None) => raise TypeError           (* [int(None)] *)
  | (true, gal_name, Some gal_id) =>
      if negb ((1 <=? gal_id) && (gal_id <=? 256))
      then ret "Galaxy must be 1-256 or a valid name."
      else
        let galaxy := PyText.str_of_int gal_id in
        if negb (validate_address address)
        then ret "Address must be a 12-digit hex number starting with 1-6."
        else
          locations <- load_locations ;;
          found <- find_location_by_galaxy_address galaxy address ;;
          if is_some found
          then ret "This galaxy+address combination already exists."
          else if PyStr.mem (PyStr.lower name)
                            (map PyStr.lower (PyDict.keys locations))
          then ret ("Name '" ++ name
                    ++ "' already exists (case-insensitive). Please choose a unique name.")%string
          else
            registered <- register_location name galaxy address description ;;
            if (registered : bool)
            then ret ("Location added successfully:" ++ newline
                      ++ "- Name: " ++ name ++ newline
                      ++ "- Galaxy: " ++ galaxy
                      ++ " (" ++ str_of_optional gal_name ++ ")" ++ newline
                      ++ "- Address: " ++ address ++ newline
                      ++ "- Description: " ++ description ++ newline
                      ++ "- URL: https://glyphs.had.sh/" ++ galaxy ++ "-"
                      ++ address)%string
            else ret "Failed to add location."
  end.

(** The loop of [RemoveModal] that looks for the record to remove: the name
    of the first record with this galaxy and address. *)
Definition first_name_with_pair (g a : string) (locations : Locations)
  : option string :=
  option_map fst (find (fun item => has_pair g a (snd item)) locations).

Definition RemoveModal_on_submit (galaxy_value address_value : string)
  : M string :=
  let galaxy_input := galaxy_value in
  let address := PyText.upper address_value in
  checked <- lift (check_galaxy_mention (galaxy_check_input galaxy_input)) ;;
  match checked with
  | (false, _, _) => ret "Galaxy must be 1-256 or a valid name."
  | (true, _, None) => raise TypeError           (* [int(None)] *)
  | (true, _, Some gal_id) =>
      if negb ((1 <=? gal_id) && (gal_id <=? 256))
      then ret "Galaxy must be 1-256 or a valid name."
      else
        let galaxy := PyText.str_of_int gal_id in
        if negb (validate_address address)
        then ret "Address must be a 12-digit hex number starting with 1-6."
        else
          locations <- load_locations ;;
          match first_name_with_pair galaxy address locations with
          | Some (String c rest as matched_name) =>
              let locations := PyDictMore.delete locations matched_name in
              save_locations locations ;;
              ret ("Location '" ++ matched_name
                   ++ "' removed successfully.")%string
          | _ => ret "Location not found."   (* no match, or an empty name *)
          end
  end.

(** The Modify form.  The record is identified by its address or by a
    partial-ratio match of its name; the address is never changed. *)

(** The loop that looks for the record with a given address. *)
Definition first_name_with_address (a : string) (locations : Locations)
  : option string :=
  option_map fst
    (find (fun item => (address (snd item) =? a)%string) locations).

(** ["\n".join(f"- {m[0]}" for m in matches)] *)
Definition bullet_list (matches : list (string * Z)) : string :=
  PyText.join newline (map (fun m => ("- " ++ fst m)%string) matches).

Section ModifyForm.

Context `{Scorer}.

(** [matches]: the names scoring at least 80, best first. *)
Definition identifier_matches (identifier : string) (locations : Locations)
  : list (string * Z) :=
  sorted_desc snd
    (filter (fun m => 80 <=? snd m)
       (map (fun n =>
               (n, partial_ratio (PyStr.lower identifier) (PyStr.lower n)))
            (PyDict.keys locations))).

(** The first part of [on_submit]: a response that ends the submission, or
    the value of [name] ([None] when nothing was identified). *)
Definition identify (identifier : string) (locations : Locations)
  : string + option string :=
  if validate_address (PyText.upper identifier) then
    inr (first_name_with_address (PyText.upper identifier) locations)
  else
    let matches := identifier_matches identifier locations in
    let n := length matches in
    if (n =? 1)%nat then inr (option_map fst (hd_error matches))
    else if ((1 <? n) && (n <=? 5))%nat then
      inl ("Multiple locations match your input. Please use a more unique name or the address:"
           ++ newline ++ bullet_list matches)%string
    else if (5 <? n)%nat then
      inl ("Multiple locations match your input (5 out of "
           ++ PyText.str_of_int (Z.of_nat n)
           ++ " shown). Please use a more unique name or the address:"
           ++ newline ++ bullet_list (firstn 5 matches))%string
    else inr None.

(** The last part of [on_submit], once [new_galaxy] is known. *)
Definition submit_modification (name : string) (current : Location)
    (new_galaxy new_desc : string) : M string :=
  let new_address := address current in
  let new_desc := or_default new_desc (description current) in
  modified <- modify_location name (galaxy current) (address current)
                (Some new_galaxy) (Some new_address) (Some new_desc) ;;
  if (modified : bool)
  then ret ("Location '" ++ name ++ "' modified successfully.")%string
  else ret "Failed to modify location. Check old values match.".

Definition ModifyModal_on_submit
    (identifier_value new_galaxy_value new_description_value : string)
  : M string :=
  let identifier := identifier_value in
  let new_galaxy_input := new_galaxy_value in
  let new_desc := new_description_value in
  locations <- load_locations ;;
  match identify identifier locations with
  | inl response => ret response
  | inr None => ret "Location not found."
  | inr (Some EmptyString) => ret "Location not found."
  | inr (Some name) =>
      current <- getitem locations name ;;
      match new_galaxy_input with
      | EmptyString =>
          submit_modification name current (galaxy current) new_desc
      | _ =>
          checked <-
            lift (check_galaxy_mention (galaxy_check_input new_galaxy_input)) ;;
          match checked with
          | (false, _, _) => ret "New galaxy must be 1-256 or a valid name."
          | (true, _, None) => raise TypeError       (* [int(None)] *)
          | (true, _, Some new_gal_id) =>
              if negb ((1 <=? new_gal_id) && (new_gal_id <=? 256))
              then ret "New galaxy must be 1-256 or a valid name."
              else submit_modification name current
                     (PyText.str_of_int new_gal_id) new_desc
          end
      end
  end.

End ModifyForm.

(** ** The result picker and the [/glyphs] command ([ggf_glyph_dispener.py]) *)

(** [f"{r['name']} (Galaxy {r['galaxy']}, {r['address']})"] *)
Definition result_title (r : Entry) : string :=
  (entry_name r ++ " (Galaxy " ++ galaxy (entry_data r) ++ ", "
   ++ address (entry_data r) ++ ")")%string.

(** [PickResultModal]: [__init__] keeps the first ten results, [on_submit]
    answers for the number typed into the form. *)
Definition PickResultModal_on_submit (results : list Entry)
    (choice_value : string) : outcome string :=
  let results := firstn 10 results in
  match PyInt.of_str choice_value with
  | Some typed =>
      let choice := typed - 1 in
      if (0 <=? choice) && (choice <? Z.of_nat (length results)) then
        match nth_error results (Z.to_nat choice) with
        | Some result =>
            Ok ("Selected: " ++ result_title result ++ newline
                ++ description (entry_data result))%string
        | None => Raise IndexError
        end
      else Ok "Invalid choice. Please pick a number within the range."
  | None => Ok "Please enter a valid number."
  end.

(** What the command asks of the chat interface: a message, one of the
    forms, or the result picker.  Whether the interface accepts the request
    is outside the model. *)
Inductive Form : Type := AddForm | RemoveForm | ModifyForm.

Inductive Reply : Type :=
| Message (text : string)
| OpenForm (form : Form)
| PickResult (results : list Entry) (total_count : nat)
| NoReply.

Definition PRIVILEGED_ROLE_ID : Z := 1319567365200937002.

(** [s.split(maxsplit=1)]: the first word and, if anything but white space
    follows it, the remainder without its leading white space. *)
Definition split_first (s : string) : list string :=
  match PyStr.lstrip s with
  | EmptyString => []
  | s1 =>
      let (word, tail) := PyText.span (fun c => negb (PyStr.isspace c)) s1 in
      match PyStr.lstrip tail with
      | EmptyString => [word]
      | rest => [word; rest]
      end
  end.

Definition help_text : string :=
  ("Commands:" ++ newline
   ++ "- `/glyphs find <term>`: Search locations by name or description."
   ++ newline
   ++ "- `/glyphs top`: List top 10 most returned locations." ++ newline
   ++ "- `/glyphs add`: Add a location (restricted to privileged users)."
   ++ newline
   ++ "- `/glyphs remove`: Remove a location (restricted to privileged users)."
   ++ newline
   ++ "- `/glyphs modify`: Modify a location's galaxy or description (restricted to privileged users)."
   ++ newline
   ++ "- `/glyphs <location>`: Direct search for a location.")%string.

Section Command.

Context `{Scorer}.

Definition commands : list string :=
  ["find"; "top"; "remove"; "modify"; "add"; "help"].

(** [max(commands, key=lambda cmd: fuzz.ratio(first_word, cmd))] *)
Definition best_command (first_word : string) : string :=
  fst (max_by_score ("find", ratio first_word "find")
         (map (fun cmd => (cmd, ratio first_word cmd))
              ["top"; "remove"; "modify"; "add"; "help"])).

Definition matched_command (first_word : string) : option string :=
  let best_match := best_command first_word in
  if 80 <=? ratio first_word best_match then Some best_match else None.

Definition is_restricted (command : option string) : bool :=
  match command with
  | Some cmd => PyStr.mem cmd ["remove"; "modify"; "add"]
  | None => false
  end.

(** The branch taken for a command word that stands alone. *)
Definition run_command (cmd : string) : M Reply :=
  if (cmd =? "find")%string then
    ret (Message "Please use '/glyphs find <search term>' or '/glyphs <location>' for searching.")
  else if (cmd =? "top")%string then
    top_locs <- list_top_locations (PyInt 10) ;;
    ret (Message ("```" ++ newline ++ format_locations_list top_locs
                  ++ newline ++ "```")%string)
  else if (cmd =? "remove")%string then ret (OpenForm RemoveForm)
  else if (cmd =? "modify")%string then ret (OpenForm ModifyForm)
  else if (cmd =? "add")%string then ret (OpenForm AddForm)
  else if (cmd =? "help")%string then ret (Message help_text)
  else ret NoReply.

(** The records whose description matches the search term, the record found
    by name left out. *)
Definition description_results (search_term : string)
    (name_result : option Location) (locations : Locations)
  : list (string * Location) :=
  filter
    (fun item =>
       (80 <=? partial_ratio (PyStr.lower search_term)
                             (PyStr.lower (description (snd item))))
       && match name_result with
          | None => true
          | Some found =>
              negb (galaxy found =? galaxy (snd item))%string
              || negb (address found =? address (snd item))%string
          end)
    locations.

(** The entry for the record found by name, under the name it is stored
    with. *)
Definition name_results (search_term : string)
    (name_result : option Location) (locations : Locations) : list Entry :=
  match name_result with
  | None => []
  | Some found =>
      match first_name_with_pair (galaxy found) (address found) locations with
      | Some (String _ _ as matched_name) => [mkEntry matched_name found]
      | _ => [mkEntry ("matched_location_" ++ search_term)%string found]
      end
  end.

(** [results.extend(... if name not in [r["name"] for r in results])]: the
    test sees the entries added so far. *)
Definition extend_results (results : list Entry)
    (desc_results : list (string * Location)) : list Entry :=
  fold_left
    (fun acc item =>
       if PyStr.mem (fst item) (map entry_name acc) then acc
       else acc ++ [mkEntry (fst item) (snd item)])
    desc_results results.

Definition search (search_term : string) : M Reply :=
  name_result <- find_location_in_string (PyStr search_term) 80 ;;
  locations <- load_locations ;;
  let desc_results := description_results search_term name_result locations in
  let results :=
    extend_results (name_results search_term name_result locations)
                   desc_results in
  match results with
  | [] => ret (Message "No matching locations found.")
  | [result] =>
      ret (Message
             ("Found: " ++ result_title result ++ newline
              ++ description (entry_data result) ++ newline
              ++ "URL: https://glyphs.had.sh/" ++ galaxy (entry_data result)
              ++ "-" ++ address (entry_data result))%string)
  | _ => ret (PickResult results (length results))
  end.

(** The command: [roles] are the identifiers of the roles of the user. *)
Definition glyphs (roles : list Z) (action : string) : M Reply :=
  let parts := split_first (PyStr.strip action) in
  match parts with
  | [] => raise IndexError                         (* [parts[0]] *)
  | first :: more =>
      let first_word := PyStr.lower first in
      let rest := match more with r :: _ => r | [] => EmptyString end in
      let matched_command := matched_command first_word in
      if is_restricted matched_command
         && negb (existsb (fun role => role =? PRIVILEGED_ROLE_ID) roles)
      then ret (Message "You are not authorized to perform this action.")
      else
        match more, matched_command with
        | [], Some cmd => run_command cmd
        | _, _ =>
            let search_term :=
              match matched_command with
              | Some "find" => rest
              | _ => action
              end in
            search search_term
        end
  end.

End Command.

(** * Specification vocabulary *)

(** ** Registry states and outcomes *)

(** The collection that an operation works on: what [load_locations]
    returns in world [w]. *)
Definition loads (w : World) (locs : Locations) : Prop :=
  load_locations w = (Ok locs, w).

(** The new name collides, up to letter case, with a stored name. *)
Definition name_taken (locs : Locations) (name : string) : Prop :=
  exists n, In n (PyDict.keys locs) /\ PyStr.lower n = PyStr.lower name.

(** Some record has exactly this galaxy and this address. *)
Definition pair_taken (locs : Locations) (g a : string) : Prop :=
  exists r, In r (PyDict.values locs) /\ galaxy r = g /\ address r = a.

(** Some record has the same lower-cased ["galaxy-address"] string. *)
Definition pair_key_taken (locs : Locations) (g a : string) : Prop :=
  exists r, In r (PyDict.values locs) /\ loc_pair_key r = pair_key g a.

Definition new_location (g a d : string) : Location :=
  {| galaxy := g; address := a; num_returns := 0; description := d |}.

Definition saved (w : World) (locs : Locations) : World :=
  {| file := Stored locs; writable := true; writes := S (writes w) |}.

(** The record after the three conditional assignments. *)
Definition modified (loc : Location) (new_galaxy new_address
    new_description : option string) : Location :=
  assign_if with_description new_description
    (assign_if with_address new_address
       (assign_if with_galaxy new_galaxy loc)).

Definition supplied (new_galaxy new_address new_description : option string)
  : bool :=
  is_some new_galaxy || is_some new_address || is_some new_description.

Definition or_keep (new : option string) (old : string) : string :=
  match new with Some v => v | None => old end.

(** Descending order of the keys. *)
Definition ge_key {A} (key : A -> Z) (x y : A) : Prop := key y <= key x.

(** The integer that [list_top_locations] works with: [int(num)], or 0 when
    the conversion raises. *)
Definition int_or_zero (num : pyval) : Z :=
  match num with
  | PyInt z => z
  | PyStr s => match PyInt.of_str s with Some z => z | None => 0 end
  | PyNone => 0
  end.

Definition returns_of (x : string * Location) : Z := num_returns (snd x).

Definition entry_of (x : string * Location) : Entry :=
  mkEntry (fst x) (snd x).

(** The argument is a non-empty string. *)
Definition is_text (input : pyval) : bool :=
  match input with
  | PyStr EmptyString => false
  | PyStr _ => true
  | _ => false
  end.

Definition find_outcome (w : World)
    (r : outcome (option Location) * World) : Prop :=
  match r with
  | (Ok None, w') => w' = w
  | (Ok (Some found), w') =>
      exists pre name loc post,
        file w = Stored (pre ++ (name, loc) :: post)
        /\ ~ In name (PyDict.keys pre)
        /\ found = bump loc
        /\ num_returns found = num_returns loc + 1
        /\ file w' = Stored (pre ++ (name, found) :: post)
        /\ writes w' = S (writes w)
  | (Raise e, w') =>
      w' = w
      /\ (file w = Unreadable \/ file w = Undecodable
          \/ writable w = false)
  end.

(** Every pass either finds nothing, leaving the world alone, or records a
    hit on a name of the registry. *)
Definition hit_or_miss (locs : Locations) (r : outcome (option Location) * World)
    (w : World) : Prop :=
  r = (Ok None, w)
  \/ exists m, In m (PyDict.keys locs) /\ r = record_hit locs m w.

(** ** Scores and qualifying words *)

Section Vocabulary.

Context `{Scorer}.

(** The score that [extractOne] gives a choice. *)
Definition choice_score (scorer : string -> string -> Z)
    (query choice : string) : Z :=
  scorer (full_process query) (full_process choice).

(** [best] is the first of the highest-scoring names. *)
Definition first_best (score : string -> Z) (names : list string)
    (best : string) : Prop :=
  exists before after,
    names = before ++ best :: after
    /\ (forall n, In n before -> score n < score best)
    /\ (forall n, In n after -> score n <= score best).

(** The words of a location name that qualify for an input word. *)
Definition qualifying_words (threshold : Z) (word name : string)
  : list string :=
  filter (fun loc_word => threshold <=? ratio word loc_word)
         (PyStr.split name).

(** The number of qualifying (name, name word) pairs for an input word. *)
Definition qualifying_pairs (threshold : Z) (names : list string)
    (word : string) : nat :=
  list_sum (map (fun name => length (qualifying_words threshold word name))
                names).

(** The names that have at least one qualifying word, each once. *)
Definition qualifying_names (threshold : Z) (names : list string)
    (word : string) : list string :=
  filter (fun name =>
            existsb (fun loc_word => threshold <=? ratio word loc_word)
                    (PyStr.split name))
         names.

End Vocabulary.

(** ** Sample registries *)

Definition six_locations : Locations :=
  [("a", mkLocation "1" "100000000001" 2 "");
   ("b", mkLocation "1" "100000000002" 5 "");
   ("c", mkLocation "1" "100000000003" 2 "");
   ("d", mkLocation "1" "100000000004" 7 "");
   ("e", mkLocation "1" "100000000005" 0 "");
   ("f", mkLocation "1" "100000000006" 5 "")].

Definition colony : Location := mkLocation "2" "1A2B3C4D5E6F" 0 "A colony".

Definition cave : Location := mkLocation "2" "2A2B3C4D5E6F" 3 "A cave".

Definition garden : Location := mkLocation "1" "3A2B3C4D5E6F" 1 "A garden".

Definition atlas : Locations :=
  [("Crystal Falls", colony); ("Crystal Cave", cave);
   ("Eden Prime", garden)].

Definition atlas_world : World :=
  {| file := Stored atlas; writable := true; writes := 0 |}.

Definition falls_world : World :=
  {| file := Stored [("Crystal Falls", colony)];
     writable := true; writes := 0 |}.

Definition lower_atlas : Locations :=
  [("eden prime", garden); ("crystal falls", colony)].

(** ** Registry invariants *)

(** No two names equal up to letter case, no two records with the same
    lower-cased ["galaxy-address"] string. *)
Definition registry_ok (locs : Locations) : Prop :=
  NoDup (map PyStr.lower (PyDict.keys locs))
  /\ NoDup (map loc_pair_key (PyDict.values locs)).

(** ** Character classes *)

(** A hexadecimal digit, in either letter case. *)
Definition is_hex_digit (c : ascii) : bool :=
  let n := nat_of_ascii c in
  (((48 <=? n) && (n <=? 57)) || ((65 <=? n) && (n <=? 70))
   || ((97 <=? n) && (n <=? 102)))%nat.

(** A hexadecimal digit that is not a lower-case letter. *)
Definition is_upper_hex_digit (c : ascii) : bool :=
  let n := nat_of_ascii c in
  (((48 <=? n) && (n <=? 57)) || ((65 <=? n) && (n <=? 70)))%nat.

(** One of the digits 1 to 6. *)
Definition is_one_to_six (c : ascii) : bool :=
  let n := nat_of_ascii c in ((49 <=? n) && (n <=? 54))%nat.

(** Every character of [s] satisfies [p]. *)
Definition all_chars (p : ascii -> bool) (s : string) : bool :=
  forallb p (list_ascii_of_string s).

(** The galaxy identifiers that the bot accepts. *)
Definition galaxy_in_range (n : Z) : bool := (1 <=? n) && (n <=? 256).

(** ** Table layout *)

(** The fields of a record fit their columns. *)
Definition fits_columns (loc : Entry) : Prop :=
  (String.length (galaxy (entry_data loc)) <= 6)%nat
  /\ (String.length (address (entry_data loc)) <= 12)%nat
  /\ (String.length (PyText.str_of_int (num_returns (entry_data loc))) <= 7)%nat.

(** [row] shows [loc] with its description starting at column [col]. *)
Definition row_of (col : nat) (loc : Entry) (row : string) : Prop :=
  exists cells,
    row = (cells ++ description (entry_data loc))%string
    /\ String.length cells = col
    /\ String.prefix (entry_name loc) cells = true.

(** ** Canonical records *)

(** A record as the Add form writes it: the galaxy is the decimal form of an
    identifier from 1 to 256, the address is valid and in upper case. *)
Definition canonical (r : Location) : Prop :=
  (exists n, 1 <= n <= 256 /\ galaxy r = PyText.str_of_int n)
  /\ validate_address (address r) = true
  /\ all_chars is_upper_hex_digit (address r) = true.

(** * Properties *)

(** ** Strings and dicts *)

Lemma prefix_spec (a b : string) :
  String.prefix a b = true <-> exists post, b = (a ++ post)%string.
Proof.
  revert b; induction a as [|c a IH]; intros b.
  - split; [intros _; now exists b | intros _; now destruct b].
  - destruct b as [|c' b]; simpl.
    + split; [discriminate | intros [post Hp]; discriminate].
    + destruct (Ascii.ascii_dec c c') as [->|Hne].
      * rewrite IH. split; intros [post Hp]; exists post.
        -- now rewrite Hp.
        -- now injection Hp.
      * split; [discriminate | intros [post Hp]; congruence].
Qed.

(** [needle in hay] holds exactly when [needle] occurs inside [hay]. *)
Lemma contains_spec (hay needle : string) :
  PyStr.contains hay needle = true
  <-> exists pre post, hay = (pre ++ needle ++ post)%string.
Proof.
  induction hay as [|c hay IH]; cbn [PyStr.contains].
  - rewrite orb_false_r, prefix_spec. split.
    + intros [post Hp]. now exists "", post.
    + intros [pre [post Hp]]. destruct pre; [now exists post | discriminate].
  - rewrite orb_true_iff, prefix_spec, IH. split.
    + intros [[post Hp] | [pre [post Hp]]].
      * now exists "", post.
      * exists (String c pre), post. simpl. now rewrite Hp.
    + intros [pre [post Hp]]. destruct pre as [|c' pre]; simpl in Hp.
      * left. now exists post.
      * right. exists pre, post. now injection Hp.
Qed.

Lemma lower_app (a b : string) :
  PyStr.lower (a ++ b)%string = (PyStr.lower a ++ PyStr.lower b)%string.
Proof. induction a as [|c a IH]; simpl; [reflexivity | now rewrite IH]. Qed.

Lemma mem_In (x : string) (xs : list string) :
  PyStr.mem x xs = true <-> In x xs.
Proof.
  unfold PyStr.mem. rewrite existsb_exists. split.
  - intros [y [Hy Heq]]. apply String.eqb_eq in Heq. now subst.
  - intros Hx. exists x. split; [assumption | apply String.eqb_refl].
Qed.

Lemma get_In (d : Locations) (k : string) (v : Location) :
  PyDict.get d k = Some v -> In (k, v) d.
Proof.
  induction d as [|[k' v'] d IH]; simpl; [discriminate|].
  destruct (String.eqb_spec k k') as [->|Hne].
  - intros [= ->]. now left.
  - intros Hg. right. auto.
Qed.

Lemma get_None (d : Locations) (k : string) :
  PyDict.get d k = None <-> ~ In k (PyDict.keys d).
Proof.
  induction d as [|[k' v'] d IH]; simpl; [tauto|].
  destruct (String.eqb_spec k k') as [->|Hne].
  - split; [discriminate | intros Hn; exfalso; apply Hn; now left].
  - rewrite IH. split; intros Hn; [intros [Heq|Hin]; congruence | tauto].
Qed.

Lemma In_keys_get (d : Locations) (k : string) :
  In k (PyDict.keys d) -> exists v, PyDict.get d k = Some v.
Proof.
  intros Hin. destruct (PyDict.get d k) as [v|] eqn:Hg; [now exists v|].
  apply get_None in Hg. contradiction.
Qed.

(** A key that is present marks one position of the dict: its first (and, in
    a dict, only) occurrence. *)
Lemma get_split (d : Locations) (k : string) (v : Location) :
  PyDict.get d k = Some v ->
  exists pre post,
    d = pre ++ (k, v) :: post /\ ~ In k (PyDict.keys pre).
Proof.
  induction d as [|[k' v'] d IH]; simpl; [discriminate|].
  destruct (String.eqb_spec k k') as [->|Hne].
  - intros [= ->]. exists [], d. split; [reflexivity | intros []].
  - intros Hg. destruct (IH Hg) as [pre [post [Hd Hpre]]].
    exists ((k', v') :: pre), post. split.
    + simpl. now rewrite Hd.
    + simpl. intros [Heq|Hin]; [congruence | contradiction].
Qed.

Lemma set_split (pre post : Locations) (k : string) (v v' : Location) :
  ~ In k (PyDict.keys pre) ->
  PyDict.set (pre ++ (k, v) :: post) k v' = pre ++ (k, v') :: post.
Proof.
  induction pre as [|[k0 v0] pre IH]; simpl; intros Hpre.
  - now rewrite String.eqb_refl.
  - destruct (String.eqb_spec k k0) as [->|Hne]; [tauto|].
    rewrite IH; [reflexivity | tauto].
Qed.

Lemma get_split_eq (pre post : Locations) (k : string) (v : Location) :
  ~ In k (PyDict.keys pre) ->
  PyDict.get (pre ++ (k, v) :: post) k = Some v.
Proof.
  induction pre as [|[k0 v0] pre IH]; simpl; intros Hpre.
  - now rewrite String.eqb_refl.
  - destruct (String.eqb_spec k k0) as [->|Hne]; [tauto|].
    apply IH. tauto.
Qed.

Lemma set_fresh (d : Locations) (k : string) (v : Location) :
  ~ In k (PyDict.keys d) -> PyDict.set d k v = d ++ [(k, v)].
Proof.
  induction d as [|[k0 v0] d IH]; simpl; intros Hk; [reflexivity|].
  destruct (String.eqb_spec k k0) as [->|Hne]; [tauto|].
  rewrite IH; [reflexivity | tauto].
Qed.

(** ** Loading *)

Lemma load_locations_cases (w : World) :
  load_locations w =
  match file w with
  | Absent | Garbled => (Ok [], w)
  | Unreadable => (Raise PermissionError, w)
  | Undecodable => (Raise UnicodeDecodeError, w)
  | Stored locs => (Ok locs, w)
  end.
Proof.
  unfold load_locations, try_except, read_json.
  destruct (file w); reflexivity.
Qed.

Lemma loads_stored (w : World) (locs : Locations) :
  file w = Stored locs -> loads w locs.
Proof. intros Hf. unfold loads. now rewrite load_locations_cases, Hf. Qed.

Lemma load_world (w : World) : snd (load_locations w) = w.
Proof. rewrite load_locations_cases. destruct (file w); reflexivity. Qed.

(** C9 (as stated) fails: a file that exists but cannot be opened makes
    [load_locations] raise, because only [FileNotFoundError] and
    [json.JSONDecodeError] are caught. *)
Lemma load_locations_raises_when_unreadable :
  load_locations {| file := Unreadable; writable := true; writes := 0 |}
  = (Raise PermissionError,
     {| file := Unreadable; writable := true; writes := 0 |}).
Proof. reflexivity. Qed.

(** C9 (amended): [load_locations] never changes the store; it returns the
    empty collection when the file is absent or is not JSON, returns the
    stored mapping when the file parses, and raises exactly when reading
    fails with an exception other than [FileNotFoundError] and
    [JSONDecodeError] (permission denied, undecodable bytes), which it
    propagates unchanged. *)
Theorem load_locations_outcome (w : World) :
  snd (load_locations w) = w
  /\ (file w = Absent \/ file w = Garbled -> fst (load_locations w) = Ok [])
  /\ (forall locs, file w = Stored locs -> fst (load_locations w) = Ok locs)
  /\ (forall e, fst (load_locations w) = Raise e
                <-> fst (read_json w) = Raise e /\ load_handles e = false)
  /\ (forall locs, fst (load_locations w) = Ok locs
                   -> file w = Stored locs
                      \/ (locs = [] /\ (file w = Absent \/ file w = Garbled))).
Proof.
  split; [apply load_world|].
  rewrite load_locations_cases. unfold read_json.
  repeat split.
  - intros [-> | ->]; reflexivity.
  - intros locs ->. reflexivity.
  - destruct (file w); simpl in *; try discriminate;
      injection H as <-; reflexivity.
  - destruct (file w); simpl in *; try discriminate;
      injection H as <-; reflexivity.
  - intros [Hr He]. destruct (file w); simpl in *; try discriminate;
      injection Hr as <-; try discriminate; reflexivity.
  - intros locs Hl. destruct (file w); simpl in *; try discriminate;
      injection Hl as <-; auto.
Qed.

(** ** Registration *)

Lemma register_location_run w locs name g a d :
  loads w locs ->
  register_location name g a d w =
  if PyStr.mem (PyStr.lower name) (map PyStr.lower (PyDict.keys locs))
     || PyStr.mem (pair_key g a) (map loc_pair_key (PyDict.values locs))
  then (Ok false, w)
  else if writable w
       then (Ok true, saved w (PyDict.set locs name (new_location g a d)))
       else (Raise PermissionError, w).
Proof.
  intros Hl. unfold register_location, bind. rewrite Hl.
  destruct (_ || _); [reflexivity|].
  unfold save_locations, ret, saved, new_location.
  destruct (writable w); reflexivity.
Qed.

Lemma name_taken_mem locs name :
  PyStr.mem (PyStr.lower name) (map PyStr.lower (PyDict.keys locs)) = true
  <-> name_taken locs name.
Proof.
  rewrite mem_In, in_map_iff. unfold name_taken.
  split; intros [n [H1 H2]]; exists n; auto.
Qed.

Lemma pair_key_taken_mem locs g a :
  PyStr.mem (pair_key g a) (map loc_pair_key (PyDict.values locs)) = true
  <-> pair_key_taken locs g a.
Proof.
  rewrite mem_In, in_map_iff. unfold pair_key_taken.
  split; intros [r [H1 H2]]; exists r; auto.
Qed.

Lemma pair_taken_key locs g a :
  pair_taken locs g a -> pair_key_taken locs g a.
Proof.
  intros [r [Hin [Hg Ha]]]. exists r. split; [assumption|].
  unfold loc_pair_key. now rewrite Hg, Ha.
Qed.

Lemma not_taken_fresh locs name :
  ~ name_taken locs name -> ~ In name (PyDict.keys locs).
Proof. intros Hn Hin. apply Hn. now exists name. Qed.

Lemma register_location_refused w locs name g a d :
  loads w locs ->
  name_taken locs name \/ pair_key_taken locs g a ->
  register_location name g a d w = (Ok false, w).
Proof.
  intros Hl Ht. rewrite (register_location_run _ _ _ _ _ _ Hl).
  replace (_ || _) with true; [reflexivity|].
  symmetry. apply orb_true_iff.
  destruct Ht as [Ht|Ht];
    [left; now apply name_taken_mem | right; now apply pair_key_taken_mem].
Qed.

(** C7 (as stated) fails: with no name collision and no record holding the
    pair (galaxy, address), registration is still refused when a stored
    address differs from the new one in letter case only. *)
Lemma register_location_refuses_unused_pair :
  let locs := [("Alpha", mkLocation "3" "1a2b3c4d5e6f" 0 "first")] in
  let w := {| file := Stored locs; writable := true; writes := 1 |} in
  ~ name_taken locs "Nova"
  /\ ~ pair_taken locs "3" "1A2B3C4D5E6F"
  /\ register_location "Nova" "3" "1A2B3C4D5E6F" "x" w = (Ok false, w).
Proof.
  cbv zeta. split; [|split].
  - intros [n [[<-|[]] Hl]]. discriminate Hl.
  - intros [r [[<-|[]] [_ Ha]]]. discriminate Ha.
  - reflexivity.
Qed.

(** C7 (amended): [register_location] returns failure, without raising and
    without touching the store, whenever the name collides case-insensitively
    with a stored name or the lower-cased ["galaxy-address"] string of the new
    record equals that of a stored record (in particular whenever the exact
    pair is already stored); otherwise, on a writable store, it appends the
    new record with [num_returns = 0] and persists the collection. *)
Theorem register_location_spec w locs name g a d :
  loads w locs ->
  (name_taken locs name \/ pair_key_taken locs g a ->
   register_location name g a d w = (Ok false, w))
  /\ (pair_taken locs g a ->
      register_location name g a d w = (Ok false, w))
  /\ (~ name_taken locs name -> ~ pair_key_taken locs g a ->
      writable w = true ->
      register_location name g a d w
      = (Ok true, saved w (locs ++ [(name, new_location g a d)]))
      /\ PyDict.get (locs ++ [(name, new_location g a d)]) name
         = Some (new_location g a d)).
Proof.
  intros Hl.
  split; [now apply register_location_refused | split].
  - intros Hp. apply (register_location_refused _ _ _ _ _ _ Hl).
    right. now apply pair_taken_key.
  - intros Hn Hp Hw. rewrite (register_location_run _ _ _ _ _ _ Hl).
    replace (_ || _) with false.
    + rewrite Hw, set_fresh by now apply not_taken_fresh.
      split; [reflexivity|].
      replace (locs ++ [(name, new_location g a d)])
        with (locs ++ (name, new_location g a d) :: []) by reflexivity.
      apply get_split_eq. now apply not_taken_fresh.
    + symmetry. apply orb_false_iff. split.
      * destruct (PyStr.mem _ (map PyStr.lower _)) eqn:E; [|reflexivity].
        apply name_taken_mem in E. contradiction.
      * destruct (PyStr.mem _ (map loc_pair_key _)) eqn:E; [|reflexivity].
        apply pair_key_taken_mem in E. contradiction.
Qed.

Lemma register_location_spec_witness :
  let w := {| file := Absent; writable := true; writes := 0 |} in
  register_location "Nova" "3" "1A2B3C4D5E6F" "x" w
  = (Ok true, saved w [("Nova", new_location "3" "1A2B3C4D5E6F" "x")]).
Proof.
  cbv zeta.
  refine (proj1 (proj2 (proj2
    (register_location_spec
       {| file := Absent; writable := true; writes := 0 |} []
       "Nova" "3" "1A2B3C4D5E6F" "x" _)) _ _ _)).
  - reflexivity.
  - intros [n [[] _]].
  - intros [r [[] _]].
  - reflexivity.
Defined.

(** The spec's example: registering ["nova"] after ["Nova"] fails. *)
Example register_nova_twice :
  let w0 := {| file := Absent; writable := true; writes := 0 |} in
  let w1 := snd (register_location "Nova" "3" "1A2B3C4D5E6F" "x" w0) in
  fst (register_location "Nova" "3" "1A2B3C4D5E6F" "x" w0) = Ok true
  /\ register_location "nova" "3" "1A2B3C4D5E6F" "y" w1 = (Ok false, w1).
Proof. split; reflexivity. Qed.

(** C10: the duplicate-pair test of [register_location] compares lower-cased
    ["galaxy-address"] strings, so a stored record with the same galaxy and an
    address that differs only in letter case blocks the registration. *)
Theorem register_location_pair_ignores_case w locs r name g a d :
  loads w locs ->
  In r (PyDict.values locs) ->
  (loc_pair_key r = pair_key g a ->
   register_location name g a d w = (Ok false, w))
  /\ (galaxy r = g -> PyStr.lower (address r) = PyStr.lower a ->
      register_location name g a d w = (Ok false, w)).
Proof.
  intros Hl Hin.
  assert (Hkey : loc_pair_key r = pair_key g a ->
                 register_location name g a d w = (Ok false, w)).
  { intros Hk. apply (register_location_refused _ _ _ _ _ _ Hl).
    right. now exists r. }
  split; [exact Hkey|].
  intros Hg Ha. apply Hkey.
  unfold loc_pair_key, pair_key.
  rewrite !lower_app, Hg, Ha. reflexivity.
Qed.

Lemma register_location_pair_ignores_case_witness :
  let r := mkLocation "3" "1a2b3c4d5e6f" 0 "first" in
  let w := {| file := Stored [("Alpha", r)]; writable := true; writes := 1 |} in
  address r <> "1A2B3C4D5E6F"
  /\ register_location "Nova" "3" "1A2B3C4D5E6F" "x" w = (Ok false, w).
Proof.
  cbv zeta. split; [discriminate|].
  refine (proj2
    (register_location_pair_ignores_case
       {| file := Stored [("Alpha", mkLocation "3" "1a2b3c4d5e6f" 0 "first")];
          writable := true; writes := 1 |}
       [("Alpha", mkLocation "3" "1a2b3c4d5e6f" 0 "first")]
       (mkLocation "3" "1a2b3c4d5e6f" 0 "first")
       "Nova" "3" "1A2B3C4D5E6F" "x" _ _) _ _).
  - reflexivity.
  - simpl. left. reflexivity.
  - reflexivity.
  - reflexivity.
Defined.

(** ** Modification *)

Lemma modified_fields loc ng na nd :
  galaxy (modified loc ng na nd) = or_keep ng (galaxy loc)
  /\ address (modified loc ng na nd) = or_keep na (address loc)
  /\ description (modified loc ng na nd) = or_keep nd (description loc)
  /\ num_returns (modified loc ng na nd) = num_returns loc.
Proof. destruct ng, na, nd; repeat split. Qed.

Lemma modify_location_run w locs name og oa ng na nd :
  loads w locs ->
  modify_location name og oa ng na nd w =
  match PyDict.get locs (PyStr.lower name) with
  | None => (Ok false, w)
  | Some loc =>
      if negb (galaxy loc =? og)%string || negb (address loc =? oa)%string
      then (Ok false, w)
      else if supplied ng na nd then
             if writable w
             then (Ok true,
                   saved w (PyDict.set locs (PyStr.lower name)
                                       (modified loc ng na nd)))
             else (Raise PermissionError, w)
           else (Ok true, w)
  end.
Proof.
  intros Hl. unfold modify_location, bind. rewrite Hl.
  unfold PyDict.mem, getitem.
  destruct (PyDict.get locs (PyStr.lower name)) as [loc|]; [|reflexivity].
  cbn [negb ret]. destruct (_ || _); [reflexivity|].
  fold (modified loc ng na nd). fold (supplied ng na nd).
  destruct (supplied ng na nd); [|reflexivity].
  unfold save_locations, saved. destruct (writable w); reflexivity.
Qed.

(** The lookup of [modify_location] is an exact lookup of the lower-cased
    argument among the stored keys. *)
Lemma modify_location_not_found w locs name og oa ng na nd :
  loads w locs ->
  ~ In (PyStr.lower name) (PyDict.keys locs) ->
  modify_location name og oa ng na nd w = (Ok false, w).
Proof.
  intros Hl Hn. rewrite (modify_location_run _ _ _ _ _ _ _ _ Hl).
  apply get_None in Hn. now rewrite Hn.
Qed.

(** C1: after [register("Nova", "3", "1A2B3C4D5E6F", "x")] the stored key is
    ["Nova"], which equals the argument up to letter case (here exactly), yet
    [modify("Nova", "3", "1A2B3C4D5E6F", new_galaxy="9")] reports failure and
    changes nothing: the lower-cased argument ["nova"] is looked up as a key. *)
Theorem modify_location_misses_registered_name :
  let w0 := {| file := Absent; writable := true; writes := 0 |} in
  let w1 := snd (register_location "Nova" "3" "1A2B3C4D5E6F" "x" w0) in
  file w1 = Stored [("Nova", new_location "3" "1A2B3C4D5E6F" "x")]
  /\ name_taken [("Nova", new_location "3" "1A2B3C4D5E6F" "x")] "Nova"
  /\ modify_location "Nova" "3" "1A2B3C4D5E6F" (Some "9") None None w1
     = (Ok false, w1).
Proof.
  cbv zeta. split; [reflexivity | split; [|reflexivity]].
  exists "Nova". split; [now left | reflexivity].
Qed.

(** C8 (as stated) fails: supplying values identical to the stored ones
    still rewrites the file (the save counter goes from 1 to 2). *)
Lemma modify_location_saves_identical_values :
  let locs := [("nova", mkLocation "3" "1A2B3C4D5E6F" 0 "x")] in
  modify_location "nova" "3" "1A2B3C4D5E6F"
    (Some "3") (Some "1A2B3C4D5E6F") (Some "x")
    {| file := Stored locs; writable := true; writes := 1 |}
  = (Ok true, {| file := Stored locs; writable := true; writes := 2 |}).
Proof. reflexivity. Qed.

(** C8 (amended): for a record found under the lower-cased name whose galaxy
    and address equal the supplied old values, [modify_location] succeeds; the
    record takes exactly the supplied new values, every field without a new
    value keeps its prior value, [num_returns] and all other records are
    untouched; the registry is persisted exactly when at least one new value
    was supplied, whether or not it differs from the current one. *)
Theorem modify_location_spec w locs name og oa ng na nd loc :
  loads w locs ->
  PyDict.get locs (PyStr.lower name) = Some loc ->
  galaxy loc = og -> address loc = oa ->
  exists pre post loc',
    locs = pre ++ (PyStr.lower name, loc) :: post
    /\ ~ In (PyStr.lower name) (PyDict.keys pre)
    /\ galaxy loc' = or_keep ng (galaxy loc)
    /\ address loc' = or_keep na (address loc)
    /\ description loc' = or_keep nd (description loc)
    /\ num_returns loc' = num_returns loc
    /\ (ng = None -> na = None -> nd = None ->
        modify_location name og oa ng na nd w = (Ok true, w))
    /\ (ng <> None \/ na <> None \/ nd <> None ->
        writable w = true ->
        modify_location name og oa ng na nd w
        = (Ok true, saved w (pre ++ (PyStr.lower name, loc') :: post))).
Proof.
  intros Hl Hg Hog Hoa.
  destruct (get_split _ _ _ Hg) as [pre [post [Hlocs Hpre]]].
  exists pre, post, (modified loc ng na nd).
  destruct (modified_fields loc ng na nd) as [F1 [F2 [F3 F4]]].
  repeat (split; [assumption|]).
  assert (Hguard : negb (galaxy loc =? og)%string
                   || negb (address loc =? oa)%string = false).
  { subst og oa. now rewrite !String.eqb_refl. }
  split.
  - intros -> -> ->.
    rewrite (modify_location_run _ _ _ _ _ _ _ _ Hl), Hg, Hguard.
    reflexivity.
  - intros Hs Hw.
    rewrite (modify_location_run _ _ _ _ _ _ _ _ Hl), Hg, Hguard, Hw.
    replace (supplied ng na nd) with true.
    + rewrite Hlocs at 1. now rewrite set_split.
    + unfold supplied. destruct ng, na, nd; try reflexivity.
      destruct Hs as [Hs|[Hs|Hs]]; congruence.
Qed.

Lemma modify_location_spec_witness :
  let loc := mkLocation "3" "1A2B3C4D5E6F" 4 "x" in
  let w := {| file := Stored [("nova", loc)]; writable := true; writes := 1 |} in
  exists loc',
    galaxy loc' = "9" /\ address loc' = "1A2B3C4D5E6F"
    /\ description loc' = "x" /\ num_returns loc' = 4
    /\ modify_location "Nova" "3" "1A2B3C4D5E6F" (Some "9") None None w
       = (Ok true, saved w [("nova", loc')]).
Proof.
  cbv zeta.
  destruct (modify_location_spec
              {| file := Stored [("nova", mkLocation "3" "1A2B3C4D5E6F" 4 "x")];
                 writable := true; writes := 1 |}
              [("nova", mkLocation "3" "1A2B3C4D5E6F" 4 "x")]
              "Nova" "3" "1A2B3C4D5E6F" (Some "9") None None
              (mkLocation "3" "1A2B3C4D5E6F" 4 "x")
              eq_refl eq_refl eq_refl eq_refl)
    as [pre [post [loc' [Hl [Hp [F1 [F2 [F3 [F4 [_ Hrun]]]]]]]]]].
  exists loc'. repeat (split; [assumption|]).
  destruct pre as [|p pre].
  - injection Hl as <-. apply Hrun; [left; discriminate | reflexivity].
  - exfalso. destruct pre; discriminate Hl.
Defined.

(** ** Ranking *)

Section Ranking.

Context {A : Type} (key : A -> Z).

Lemma insert_desc_perm (x : A) (l : list A) :
  Permutation (insert_desc key x l) (x :: l).
Proof.
  induction l as [|y l IH]; simpl; [reflexivity|].
  destruct (key x <? key y); [|reflexivity].
  rewrite IH. apply perm_swap.
Qed.

Lemma sorted_desc_perm (l : list A) : Permutation (sorted_desc key l) l.
Proof.
  induction l as [|x l IH]; simpl; [reflexivity|].
  rewrite insert_desc_perm. now constructor.
Qed.

Lemma insert_desc_sorted (x : A) (l : list A) :
  StronglySorted (ge_key key) l -> StronglySorted (ge_key key) (insert_desc key x l).
Proof.
  induction l as [|y l IH]; simpl; intros Hs.
  - repeat constructor.
  - inversion Hs as [|? ? Hl Hy]; subst.
    destruct (Z.ltb_spec (key x) (key y)) as [Hlt|Hge].
    + constructor; [auto|].
      apply Forall_forall. intros z Hz.
      apply (Permutation_in _ (insert_desc_perm x l)) in Hz.
      destruct Hz as [<-|Hz]; [unfold ge_key; lia|].
      rewrite Forall_forall in Hy. auto.
    + constructor; [assumption|].
      constructor; [exact Hge|].
      rewrite Forall_forall in Hy |- *. intros z Hz.
      specialize (Hy z Hz). unfold ge_key in *. lia.
Qed.

Lemma sorted_desc_sorted (l : list A) :
  StronglySorted (ge_key key) (sorted_desc key l).
Proof.
  induction l as [|x l IH]; simpl; [constructor|].
  now apply insert_desc_sorted.
Qed.

(** Stability: the records of any one key value keep their order. *)
Lemma insert_desc_stable (k : Z) (x : A) (l : list A) :
  filter (fun y => key y =? k) (insert_desc key x l)
  = filter (fun y => key y =? k) (x :: l).
Proof.
  induction l as [|y l IH]; [reflexivity|].
  cbn [insert_desc].
  destruct (Z.ltb_spec (key x) (key y)) as [Hlt|Hge]; [|reflexivity].
  cbn [filter] in *. rewrite IH.
  destruct (Z.eqb_spec (key x) k) as [Hx|Hx];
    destruct (Z.eqb_spec (key y) k) as [Hy|Hy]; try reflexivity.
  lia.
Qed.

Lemma sorted_desc_stable (k : Z) (l : list A) :
  filter (fun y => key y =? k) (sorted_desc key l)
  = filter (fun y => key y =? k) l.
Proof.
  induction l as [|x l IH]; [reflexivity|].
  cbn [sorted_desc]. rewrite insert_desc_stable.
  cbn [filter]. now rewrite IH.
Qed.

End Ranking.

Lemma list_top_locations_run w locs num :
  loads w locs ->
  list_top_locations num w
  = (Ok (map entry_of
           (slice_to (sorted_desc returns_of locs) (int_or_zero num))), w).
Proof.
  intros Hl. unfold list_top_locations, bind, try_except, py_int.
  destruct num as [|z|s]; cbn.
  - now rewrite Hl.
  - now rewrite Hl.
  - destruct (PyInt.of_str s); cbn; now rewrite Hl.
Qed.

(** For a parsable, non-negative [n] the result is the first [n] records of
    the ranking: a permutation of the registry in descending order of
    [num_returns] in which records with equal counters keep their registry
    order. *)
Lemma list_top_locations_ranking w locs num :
  loads w locs ->
  0 <= int_or_zero num ->
  let ranking := sorted_desc returns_of locs in
  list_top_locations num w
  = (Ok (map entry_of (firstn (Z.to_nat (int_or_zero num)) ranking)), w)
  /\ Permutation ranking locs
  /\ StronglySorted (ge_key returns_of) ranking
  /\ (forall k, filter (fun x => returns_of x =? k) ranking
                = filter (fun x => returns_of x =? k) locs).
Proof.
  intros Hl Hn ranking. repeat split.
  - rewrite (list_top_locations_run _ _ _ Hl). unfold slice_to.
    destruct (Z.leb_spec 0 (int_or_zero num)); [reflexivity | lia].
  - apply sorted_desc_perm.
  - apply sorted_desc_sorted.
  - intros k. apply sorted_desc_stable.
Qed.

(** Zero and every argument that [int()] rejects give the empty list. *)
Lemma list_top_locations_zero w locs num :
  loads w locs ->
  num = PyInt 0 \/ num = PyNone
  \/ (exists s, num = PyStr s /\ PyInt.of_str s = None) ->
  list_top_locations num w = (Ok [], w).
Proof.
  intros Hl Hnum. rewrite (list_top_locations_run _ _ _ Hl).
  assert (Hz : int_or_zero num = 0).
  { destruct Hnum as [-> | [-> | [s [-> Hs]]]]; cbn; [reflexivity..|].
    now rewrite Hs. }
  rewrite Hz. reflexivity.
Qed.

Example list_top_locations_abc w locs :
  loads w locs -> list_top_locations (PyStr "abc") w = (Ok [], w).
Proof.
  intros Hl. apply (list_top_locations_zero _ _ _ Hl).
  right; right. exists "abc". split; reflexivity.
Qed.

(** A negative [n] drops the last [|n|] records of the ranking instead. *)
Lemma list_top_locations_negative w locs z :
  loads w locs ->
  z < 0 ->
  list_top_locations (PyInt z) w
  = (Ok (map entry_of
           (firstn (length locs - Z.to_nat (- z))
                   (sorted_desc returns_of locs))), w).
Proof.
  intros Hl Hz. rewrite (list_top_locations_run _ _ _ Hl).
  unfold slice_to. cbn [int_or_zero].
  destruct (Z.leb_spec 0 z); [lia|].
  rewrite (Permutation_length (sorted_desc_perm returns_of locs)).
  do 3 f_equal. f_equal. lia.
Qed.

(** C2: on a registry of six records [list_top_locations(-5)] is not empty:
    the slice [sorted_locs[:-5]] keeps the most returned record. *)
Theorem list_top_locations_minus_five :
  list_top_locations (PyInt (-5))
    {| file := Stored six_locations; writable := true; writes := 0 |}
  = (Ok [mkEntry "d" (mkLocation "1" "100000000004" 7 "")],
     {| file := Stored six_locations; writable := true; writes := 0 |}).
Proof. reflexivity. Qed.

Example list_top_locations_three :
  fst (list_top_locations (PyStr " 3 ")
         {| file := Stored six_locations; writable := true; writes := 0 |})
  = Ok [mkEntry "d" (mkLocation "1" "100000000004" 7 "");
        mkEntry "b" (mkLocation "1" "100000000002" 5 "");
        mkEntry "f" (mkLocation "1" "100000000006" 5 "")].
Proof. reflexivity. Qed.

(** ** The resolver: recording a hit *)

Lemma get_set_same (d : Locations) (k : string) (v : Location) :
  PyDict.get (PyDict.set d k v) k = Some v.
Proof.
  induction d as [|[k0 v0] d IH]; simpl.
  - now rewrite String.eqb_refl.
  - destruct (String.eqb_spec k k0) as [->|Hne]; simpl.
    + now rewrite String.eqb_refl.
    + destruct (String.eqb_spec k k0); [contradiction | exact IH].
Qed.

Lemma record_hit_run locs name loc w :
  PyDict.get locs name = Some loc ->
  record_hit locs name w =
  if writable w
  then (Ok (Some (bump loc)), saved w (PyDict.set locs name (bump loc)))
  else (Raise PermissionError, w).
Proof.
  intros Hg. unfold record_hit, bind, getitem. rewrite Hg. cbn [ret].
  unfold save_locations. destruct (writable w); [|reflexivity].
  rewrite get_set_same. reflexivity.
Qed.

(** What a successful pass does to the world: one record, at the position of
    [name], has its counter incremented, and the collection is saved. *)
Lemma record_hit_effect locs name w :
  In name (PyDict.keys locs) ->
  exists pre post loc,
    locs = pre ++ (name, loc) :: post
    /\ ~ In name (PyDict.keys pre)
    /\ record_hit locs name w =
       if writable w
       then (Ok (Some (bump loc)), saved w (pre ++ (name, bump loc) :: post))
       else (Raise PermissionError, w).
Proof.
  intros Hin. destruct (In_keys_get _ _ Hin) as [loc Hg].
  destruct (get_split _ _ _ Hg) as [pre [post [Hlocs Hpre]]].
  exists pre, post, loc. repeat split; try assumption.
  rewrite (record_hit_run _ _ _ _ Hg). rewrite Hlocs at 1.
  now rewrite set_split.
Qed.

(** ** The resolver: which name each pass picks *)

Lemma filter_first {A} (p : A -> bool) (l : list A) (x : A) (rest : list A) :
  filter p l = x :: rest ->
  exists before after,
    l = before ++ x :: after
    /\ (forall y, In y before -> p y = false)
    /\ p x = true
    /\ rest = filter p after.
Proof.
  induction l as [|y l IH]; simpl; [discriminate|].
  destruct (p y) eqn:Hy.
  - intros [= -> <-]. exists [], l. repeat split; auto. intros ? [].
  - intros Hf. destruct (IH Hf) as [before [after [Hl [Hb [Hx Hr]]]]].
    exists (y :: before), after. repeat split; auto.
    + simpl. now rewrite Hl.
    + intros z [<-|Hz]; auto.
Qed.

(** [max_by_score] returns the first element of largest score. *)
Lemma max_by_score_first (l : list (string * Z)) :
  forall best,
  exists before after,
    best :: l = before ++ max_by_score best l :: after
    /\ (forall x, In x before -> snd x < snd (max_by_score best l))
    /\ (forall x, In x after -> snd x <= snd (max_by_score best l)).
Proof.
  induction l as [|x l IH]; intros best; simpl.
  - exists [], []. repeat split; intros ? [].
  - destruct (Z.ltb_spec (snd best) (snd x)) as [Hlt|Hge].
    + destruct (IH x) as [before [after [Hl [Hb Ha]]]].
      exists (best :: before), after. repeat split; auto.
      * simpl. now rewrite Hl.
      * intros y [<-|Hy]; auto.
        assert (Hx : In x (before ++ max_by_score x l :: after))
          by (rewrite <- Hl; now left).
        apply in_app_or in Hx. destruct Hx as [Hx|[Hx|Hx]].
        -- specialize (Hb _ Hx). lia.
        -- rewrite Hx. exact Hlt.
        -- specialize (Ha _ Hx). lia.
    + destruct (IH best) as [before [after [Hl [Hb Ha]]]].
      destruct before as [|b before]; simpl in Hl.
      * injection Hl as Hbest Hafter.
        exists [], (x :: after). rewrite <- Hbest. repeat split.
        -- now rewrite <- Hafter.
        -- intros ? [].
        -- intros y [<-|Hy]; [exact Hge|]. rewrite Hbest. auto.
      * injection Hl as <- Hl'.
        exists (best :: x :: before), after. repeat split; auto.
        -- simpl. do 2 f_equal. exact Hl'.
        -- intros y [<-|[<-|Hy]].
           ++ apply Hb. now left.
           ++ assert (snd best < snd (max_by_score best l))
                by (apply Hb; now left). lia.
           ++ apply Hb. now right.
Qed.

Lemma filter_map_split {A B} (p : B -> bool) (f : A -> B) (l : list A) :
  forall before y after,
    filter p (map f l) = before ++ y :: after ->
    exists lb x la,
      l = lb ++ x :: la /\ f x = y /\ p y = true
      /\ filter p (map f lb) = before
      /\ filter p (map f la) = after.
Proof.
  induction l as [|a l IH]; intros before y after; simpl.
  - intros Hf. destruct before; discriminate.
  - destruct (p (f a)) eqn:Hp.
    + destruct before as [|b before]; simpl.
      * intros [= Hy Ha]. exists [], a, l. simpl.
        repeat split; auto. now rewrite <- Hy.
      * intros [= Hb Hf]. destruct (IH _ _ _ Hf) as [lb [x [la H']]].
        destruct H' as [Hl [Hx [Hpy [Hlb Hla]]]].
        exists (a :: lb), x, la. simpl. rewrite Hp.
        repeat split; auto; [now rewrite Hl | now rewrite Hlb, Hb].
    + intros Hf. destruct (IH _ _ _ Hf) as [lb [x [la H']]].
      destruct H' as [Hl [Hx [Hpy [Hlb Hla]]]].
      exists (a :: lb), x, la. simpl. rewrite Hp.
      repeat split; auto. now rewrite Hl.
Qed.

Section Choice.

Context `{Scorer}.

Lemma extractOne_Some scorer query choices m sc :
  extractOne scorer query choices = Some (m, sc) ->
  sc = choice_score scorer query m
  /\ 0 <= sc
  /\ first_best (choice_score scorer query) choices m.
Proof.
  unfold extractOne.
  set (f := fun c => (c, scorer (full_process query) (full_process c))).
  set (p := fun cs : string * Z => 0 <=? snd cs).
  destruct (filter p (map f choices)) as [|x l] eqn:Hf; [discriminate|].
  intros [= Hm].
  destruct (max_by_score_first l x) as [before [after [Hl [Hb Ha]]]].
  rewrite Hm in Hl, Hb, Ha. simpl in Hb, Ha.
  rewrite Hl in Hf.
  destruct (filter_map_split p f choices _ _ _ Hf)
    as [lb [c [la [Hc [Hfc [Hp [Hlb Hla]]]]]]].
  unfold f in Hfc. injection Hfc as -> Hsc.
  unfold p in Hp. simpl in Hp. apply Z.leb_le in Hp.
  split; [now symmetry | split; [assumption|]].
  exists lb, la. split; [assumption|].
  fold (choice_score scorer query m) in Hsc. rewrite Hsc.
  assert (Hside : forall (part : list string) (scored : list (string * Z))
                         (bound : Z -> Prop),
             filter p (map f part) = scored ->
             (forall x, In x scored -> bound (snd x)) ->
             (forall z, z < 0 -> bound z) ->
             forall n, In n part -> bound (choice_score scorer query n)).
  { intros part scored bound Hpart Hs Hneg n Hn.
    destruct (Z.leb_spec 0 (choice_score scorer query n)) as [Hpos|Hlt0].
    - apply (Hs (f n)). rewrite <- Hpart. apply filter_In. split.
      + now apply in_map.
      + unfold p, f. simpl. now apply Z.leb_le.
    - now apply Hneg. }
  split.
  - apply (Hside lb before (fun z => z < sc) Hlb Hb). intros; lia.
  - apply (Hside la after (fun z => z <= sc) Hla Ha). intros; lia.
Qed.

Lemma extractOne_None scorer query choices :
  extractOne scorer query choices = None ->
  forall n, In n choices -> choice_score scorer query n < 0.
Proof.
  unfold extractOne.
  set (f := fun c => (c, scorer (full_process query) (full_process c))).
  set (p := fun cs : string * Z => 0 <=? snd cs).
  destruct (filter p (map f choices)) as [|x l] eqn:Hf; [|discriminate].
  intros _ n Hn.
  destruct (Z.leb_spec 0 (choice_score scorer query n)) as [Hpos|]; [|easy].
  assert (Hin : In (f n) (filter p (map f choices))).
  { apply filter_In. split; [now apply in_map|].
    unfold p, f. simpl. now apply Z.leb_le. }
  rewrite Hf in Hin. destruct Hin.
Qed.

Lemma first_best_In score names best :
  first_best score names best -> In best names.
Proof.
  intros [before [after [-> _]]]. apply in_or_app. right. now left.
Qed.

Lemma word_matches_In threshold names word m :
  In m (word_matches threshold names word) -> In m names.
Proof.
  unfold word_matches. rewrite in_flat_map.
  intros [name [Hname Hm]]. rewrite in_flat_map in Hm.
  destruct Hm as [lw [_ Hm]].
  destruct (threshold <=? ratio word lw); [|destruct Hm].
  destruct Hm as [<-|[]]. exact Hname.
Qed.

End Choice.

(** ** The resolver: the three passes *)

Section Passes.

Context `{Scorer}.

Lemma find_location_in_string_run w locs s threshold :
  loads w locs -> s <> "" ->
  find_location_in_string (PyStr s) threshold w =
  let input_lower := PyStr.lower s in
  let cands := substring_matches (PyDict.keys locs) input_lower in
  if ((1 <=? length cands) && (length cands <=? 2))%nat
  then (match_name <- first_item cands ;; record_hit locs match_name) w
  else phrase_pass locs threshold input_lower w.
Proof.
  intros Hl Hs. unfold find_location_in_string.
  destruct s as [|c s]; [contradiction|].
  unfold bind at 1. rewrite Hl. cbv zeta.
  destruct (_ && _)%bool; reflexivity.
Qed.

Lemma substring_matches_spec names input_lower name :
  In name (substring_matches names input_lower)
  <-> In name names
      /\ exists pre post,
           PyStr.lower name = (pre ++ input_lower ++ post)%string.
Proof.
  unfold substring_matches. rewrite filter_In, contains_spec. reflexivity.
Qed.

(** C5: in the substring pass a name is a candidate exactly when the
    lower-cased input occurs inside the lower-cased name; with one or two
    candidates the first one in registry order is the match, with none or
    more than two the resolver goes on to the fuzzy passes. *)
Theorem substring_pass_spec w locs s threshold :
  loads w locs -> s <> "" ->
  let input_lower := PyStr.lower s in
  let cands := substring_matches (PyDict.keys locs) input_lower in
  (forall name,
      In name cands
      <-> In name (PyDict.keys locs)
          /\ exists pre post,
               PyStr.lower name = (pre ++ input_lower ++ post)%string)
  /\ (length cands = 1%nat \/ length cands = 2%nat ->
      exists first before after,
        PyDict.keys locs = before ++ first :: after
        /\ (forall n, In n before -> ~ In n cands)
        /\ In first cands
        /\ find_location_in_string (PyStr s) threshold w
           = record_hit locs first w)
  /\ (length cands = 0%nat \/ (length cands > 2)%nat ->
      find_location_in_string (PyStr s) threshold w
      = phrase_pass locs threshold input_lower w).
Proof.
  intros Hl Hs input_lower cands.
  split; [intros name; apply substring_matches_spec | split].
  - intros Hn.
    rewrite (find_location_in_string_run _ _ _ _ Hl Hs). cbv zeta.
    fold input_lower. fold cands.
    replace ((1 <=? length cands) && (length cands <=? 2))%nat with true
      by (symmetry; apply andb_true_iff; split; apply Nat.leb_le; lia).
    destruct cands as [|first rest] eqn:Hc; [simpl in Hn; lia|].
    unfold cands, substring_matches in Hc.
    destruct (filter_first _ _ _ _ Hc) as [before [after [Hk [Hb [Hf _]]]]].
    exists first, before, after. repeat split.
    + exact Hk.
    + intros n Hnb Hin.
      assert (Hin' : In n (substring_matches (PyDict.keys locs) input_lower))
        by (unfold substring_matches; now rewrite Hc).
      unfold substring_matches in Hin'. apply filter_In in Hin'.
      rewrite (Hb n Hnb) in Hin'. destruct Hin'; discriminate.
    + now left.
  - intros Hn.
    rewrite (find_location_in_string_run _ _ _ _ Hl Hs). cbv zeta.
    fold input_lower. fold cands.
    replace ((1 <=? length cands) && (length cands <=? 2))%nat with false;
      [reflexivity|].
    symmetry. apply andb_false_iff.
    destruct Hn as [Hn|Hn]; [left | right]; apply Nat.leb_gt; lia.
Qed.

Lemma phrase_guard_spec threshold input_lower match_name :
  phrase_guard threshold input_lower match_name = true
  <-> (exists pre post,
          input_lower = (pre ++ PyStr.lower match_name ++ post)%string)
      \/ (exists word,
             In word (PyStr.split input_lower)
             /\ threshold <= ratio word (PyStr.lower match_name)).
Proof.
  unfold phrase_guard. rewrite orb_true_iff, contains_spec, existsb_exists.
  split; (intros [Hc|[word [Hw Hr]]]; [now left | right; exists word]);
    (split; [assumption|]); now apply Z.leb_le.
Qed.

(** C6: when the substring pass does not decide, the resolver takes the
    name with the highest partial-ratio score against the lower-cased input
    (the first of them among equals) and accepts it exactly when that score
    reaches the threshold and, in addition, the lower-cased name occurs in
    the lower-cased input or some whitespace-delimited word of the input has
    full-ratio similarity of at least the threshold to the lower-cased name;
    otherwise, and when there is no name to take, it goes on to the
    single-word pass. *)
Theorem phrase_pass_spec w locs s threshold :
  loads w locs -> s <> "" ->
  let input_lower := PyStr.lower s in
  let names := PyDict.keys locs in
  let n := length (substring_matches names input_lower) in
  (n = 0 \/ n > 2)%nat ->
  let score := choice_score partial_ratio input_lower in
  let fall :=
    single_word_pass locs threshold (PyStr.split input_lower) w in
  ((forall name, In name names -> score name < 0)
   /\ find_location_in_string (PyStr s) threshold w = fall)
  \/ exists best,
       first_best score names best
       /\ let guard :=
            (exists pre post,
                input_lower = (pre ++ PyStr.lower best ++ post)%string)
            \/ (exists word,
                   In word (PyStr.split input_lower)
                   /\ threshold <= ratio word (PyStr.lower best)) in
          (threshold <= score best /\ guard ->
           find_location_in_string (PyStr s) threshold w
           = record_hit locs best w)
          /\ (~ (threshold <= score best /\ guard) ->
              find_location_in_string (PyStr s) threshold w = fall).
Proof.
  intros Hl Hs input_lower names n Hn score fall.
  rewrite (find_location_in_string_run _ _ _ _ Hl Hs). cbv zeta.
  fold input_lower. fold names. fold n.
  replace ((1 <=? n) && (n <=? 2))%nat with false
    by (symmetry; apply andb_false_iff;
        destruct Hn as [Hn|Hn]; [left | right]; apply Nat.leb_gt; lia).
  unfold phrase_pass. fold names. fold fall.
  destruct (extractOne partial_ratio input_lower names)
    as [[best sc]|] eqn:He.
  - right. exists best.
    destruct (extractOne_Some _ _ _ _ _ He) as [Hsc [_ Hbest]].
    fold score in Hsc, Hbest. split; [exact Hbest|]. cbv zeta.
    rewrite <- Hsc. split.
    + intros [Ht Hg]. apply Z.leb_le in Ht. apply phrase_guard_spec in Hg.
      now rewrite Ht, Hg.
    + intros Hno.
      destruct (Z.leb_spec threshold sc) as [Ht|Ht]; [|reflexivity].
      destruct (phrase_guard threshold input_lower best) eqn:Hg;
        [|reflexivity].
      exfalso. apply Hno. split; [exact Ht|].
      now apply phrase_guard_spec.
  - left. split; [|reflexivity].
    exact (extractOne_None _ _ _ He).
Qed.

Lemma word_matches_repeat threshold names word :
  word_matches threshold names word
  = flat_map
      (fun name =>
         repeat name (length (qualifying_words threshold word name)))
      names.
Proof.
  unfold word_matches. induction names as [|name names IH];
    [reflexivity|].
  cbn [flat_map]. rewrite IH. f_equal.
  unfold qualifying_words.
  induction (PyStr.split name) as [|lw lws IHw]; [reflexivity|].
  cbn [flat_map filter].
  destruct (threshold <=? ratio word lw); simpl; now rewrite IHw.
Qed.

Lemma word_matches_length threshold names word :
  length (word_matches threshold names word)
  = qualifying_pairs threshold names word.
Proof.
  rewrite word_matches_repeat. unfold qualifying_pairs.
  induction names as [|name names IH]; [reflexivity|].
  simpl. now rewrite length_app, repeat_length, IH.
Qed.

Lemma word_matches_In_iff threshold names word m :
  In m (word_matches threshold names word)
  <-> In m names /\ qualifying_words threshold word m <> [].
Proof.
  rewrite word_matches_repeat, in_flat_map. split.
  - intros [name [Hname Hm]]. apply repeat_spec in Hm as Heq.
    subst m. split; [assumption|].
    destruct (qualifying_words threshold word name);
      [destruct Hm | discriminate].
  - intros [Hm Hq]. exists m. split; [assumption|].
    destruct (qualifying_words threshold word m); [contradiction|].
    now left.
Qed.

Lemma qualifying_pairs_ge threshold names word name :
  In name names ->
  (length (qualifying_words threshold word name)
   <= qualifying_pairs threshold names word)%nat.
Proof.
  unfold qualifying_pairs. induction names as [|n names IH]; [intros []|].
  simpl. intros [->|Hin]; [lia|].
  specialize (IH Hin). lia.
Qed.

Lemma single_word_pass_skip locs threshold before rest w :
  (forall u, In u before ->
             qualifying_pairs threshold (PyDict.keys locs) u <> 1%nat) ->
  single_word_pass locs threshold (before ++ rest) w
  = single_word_pass locs threshold rest w.
Proof.
  induction before as [|u before IH]; intros Hb; [reflexivity|].
  cbn [app single_word_pass]. rewrite word_matches_length.
  destruct (Nat.eqb_spec (qualifying_pairs threshold (PyDict.keys locs) u) 1)
    as [He|_].
  - exfalso. apply (Hb u); [now left | exact He].
  - apply IH. intros v Hv. apply Hb. now right.
Qed.

End Passes.

Section SingleWord.

Context `{Scorer}.

(** C4 (amended): in the single-word pass the input words are taken in
    order; a word yields a match exactly when the number of qualifying
    (location name, name word) pairs, counted over all names, is exactly
    one, and then the resolver accepts the name owning that pair and looks
    at no further word; a word with no or with several qualifying pairs is
    passed over, and a name with two qualifying words counts twice, so that
    it never yields a match on that word. *)
Theorem single_word_pass_spec locs threshold words w :
  let names := PyDict.keys locs in
  let yields word := qualifying_pairs threshold names word = 1%nat in
  (forall before word after,
      words = before ++ word :: after ->
      (forall u, In u before -> ~ yields u) ->
      yields word ->
      exists m,
        In m names
        /\ length (qualifying_words threshold word m) = 1%nat
        /\ (forall n, In n names ->
                      qualifying_words threshold word n <> [] -> n = m)
        /\ single_word_pass locs threshold words w = record_hit locs m w)
  /\ ((forall u, In u words -> ~ yields u) ->
      single_word_pass locs threshold words w = (Ok None, w))
  /\ (forall word name,
         In name names ->
         (2 <= length (qualifying_words threshold word name))%nat ->
         ~ yields word).
Proof.
  intros names yields. split; [|split].
  - intros before word after Hw Hb Hy.
    assert (Hlen : length (word_matches threshold names word) = 1%nat)
      by (rewrite word_matches_length; exact Hy).
    destruct (word_matches threshold names word) as [|m [|? ?]] eqn:Hm;
      try discriminate Hlen.
    assert (Hin : In m (word_matches threshold names word))
      by (rewrite Hm; now left).
    apply word_matches_In_iff in Hin. destruct Hin as [Hmn Hq].
    exists m. split; [exact Hmn | split; [|split]].
    + pose proof (qualifying_pairs_ge threshold names word m Hmn) as Hle.
      unfold yields in Hy. rewrite Hy in Hle.
      destruct (qualifying_words threshold word m) as [|? [|? ?]];
        [contradiction | reflexivity | simpl in Hle; lia].
    + intros n Hn Hqn.
      assert (Hin : In n (word_matches threshold names word))
        by (apply word_matches_In_iff; now split).
      rewrite Hm in Hin. destruct Hin as [<-|[]]. reflexivity.
    + rewrite Hw, (single_word_pass_skip locs threshold before _ w Hb).
      cbn [single_word_pass]. fold names. rewrite Hm. reflexivity.
  - intros Hno. rewrite <- (app_nil_r words).
    rewrite (single_word_pass_skip locs threshold words [] w Hno).
    reflexivity.
  - intros word name Hn Hlen Hy.
    pose proof (qualifying_pairs_ge threshold names word name Hn) as Hle.
    unfold yields in Hy. lia.
Qed.

Lemma single_word_pass_hit_or_miss locs threshold words w :
  hit_or_miss locs (single_word_pass locs threshold words w) w.
Proof.
  induction words as [|word rest IH]; [now left|].
  cbn [single_word_pass].
  destruct (word_matches threshold (PyDict.keys locs) word)
    as [|m [|? ?]] eqn:Hm; try exact IH.
  right. exists m. split; [|reflexivity].
  apply (word_matches_In threshold _ word). rewrite Hm. now left.
Qed.

Lemma phrase_pass_hit_or_miss locs threshold input_lower w :
  hit_or_miss locs (phrase_pass locs threshold input_lower w) w.
Proof.
  unfold phrase_pass.
  destruct (extractOne partial_ratio input_lower (PyDict.keys locs))
    as [[best sc]|] eqn:He;
    [|apply single_word_pass_hit_or_miss].
  destruct (_ && _)%bool; [|apply single_word_pass_hit_or_miss].
  right. exists best. split; [|reflexivity].
  destruct (extractOne_Some _ _ _ _ _ He) as [_ [_ Hb]].
  exact (first_best_In _ _ _ Hb).
Qed.

Lemma find_location_in_string_hit_or_miss w locs s threshold :
  loads w locs -> s <> "" ->
  hit_or_miss locs (find_location_in_string (PyStr s) threshold w) w.
Proof.
  intros Hl Hs. rewrite (find_location_in_string_run _ _ _ _ Hl Hs).
  cbv zeta. destruct (_ && _)%bool eqn:Hn;
    [|apply phrase_pass_hit_or_miss].
  destruct (substring_matches _ _) as [|first rest] eqn:Hc;
    [discriminate Hn|].
  right. exists first. split; [|reflexivity].
  assert (Hin : In first (substring_matches (PyDict.keys locs)
                                            (PyStr.lower s)))
    by (rewrite Hc; now left).
  now apply substring_matches_spec in Hin.
Qed.

Lemma find_location_in_string_outcome input threshold w :
  find_outcome w (find_location_in_string input threshold w).
Proof.
  destruct input as [| |s]; try reflexivity.
  destruct (string_dec s "") as [->|Hs]; [reflexivity|].
  assert (Hcases := load_locations_cases w).
  assert (Hstep : forall locs,
             loads w locs -> (file w = Stored locs \/ locs = []) ->
             find_outcome w (find_location_in_string (PyStr s) threshold w)).
  { intros locs Hl Hfile.
    destruct (find_location_in_string_hit_or_miss w locs s threshold Hl Hs)
      as [-> | [m [Hm ->]]]; [reflexivity|].
    destruct Hfile as [Hfile | ->]; [|destruct Hm].
    destruct (record_hit_effect locs m w Hm)
      as [pre [post [loc [Hlocs [Hpre ->]]]]].
    destruct (writable w) eqn:Hw.
    - exists pre, m, loc, post. rewrite Hfile, Hlocs.
      repeat split; assumption.
    - split; [reflexivity | now right; right]. }
  destruct (file w) as [| | | |locs] eqn:Hf.
  - apply (Hstep []); [exact Hcases | now right].
  - destruct s as [|c s]; [contradiction|].
    unfold find_location_in_string, bind. rewrite Hcases.
    split; [reflexivity | now left].
  - destruct s as [|c s]; [contradiction|].
    unfold find_location_in_string, bind. rewrite Hcases.
    split; [reflexivity | right; now left].
  - apply (Hstep []); [exact Hcases | now right].
  - apply (Hstep locs); [exact Hcases | now left].
Qed.

(** C3: when [find_location_in_string] returns no match, which it does at
    once for an empty or non-string argument, the world is exactly as
    before and nothing was written; when it returns a record, the store held
    a registry in which exactly one record, the returned one, has since had
    its [num_returns] incremented by one, every other field and record being
    as before, and this registry was saved (one write) before the return.
    An exception can only come from reading or writing the file and leaves
    the world unchanged; with a readable and writable file the resolver
    always returns. *)
Theorem find_location_in_string_effect input threshold w :
  (is_text input = false ->
   find_location_in_string input threshold w = (Ok None, w))
  /\ match find_location_in_string input threshold w with
     | (Ok None, w') => w' = w
     | (Ok (Some found), w') =>
         exists pre name loc post,
           file w = Stored (pre ++ (name, loc) :: post)
           /\ ~ In name (PyDict.keys pre)
           /\ found = bump loc
           /\ num_returns found = num_returns loc + 1
           /\ file w' = Stored (pre ++ (name, found) :: post)
           /\ writes w' = S (writes w)
     | (Raise e, w') =>
         w' = w
         /\ (file w = Unreadable \/ file w = Undecodable
             \/ writable w = false)
     end
  /\ (file w <> Unreadable -> file w <> Undecodable -> writable w = true ->
      exists r w', find_location_in_string input threshold w = (Ok r, w')).
Proof.
  split; [|split].
  - destruct input as [| |[|c s]]; try discriminate; reflexivity.
  - exact (find_location_in_string_outcome input threshold w).
  - intros Hr Hd Hw.
    pose proof (find_location_in_string_outcome input threshold w) as He.
    destruct (find_location_in_string input threshold w) as [[r|e] w'].
    + now exists r, w'.
    + destruct He as [_ [He|[He|He]]]; congruence.
Qed.

End SingleWord.

(** ** Concrete runs with the reference scorer *)

Section Runs.

#[local] Existing Instance RefScorer.scorer.

(** The spec's example: one stored record, found through the full-phrase
    pass, with its counter going from 0 to 1. *)
Example resolve_crystal_falls :
  find_location_in_string (PyStr "crystal falls is beautiful") 80
    {| file := Stored [("Crystal Falls", colony)];
       writable := true; writes := 0 |}
  = (Ok (Some (bump colony)),
     {| file := Stored [("Crystal Falls", bump colony)];
        writable := true; writes := 1 |}).
Proof. vm_compute. reflexivity. Qed.

Lemma find_location_in_string_effect_witness :
  find_location_in_string PyNone 80 atlas_world = (Ok None, atlas_world)
  /\ exists r w',
       find_location_in_string (PyStr "eden") 80 atlas_world = (Ok r, w').
Proof.
  destruct (find_location_in_string_effect PyNone 80 atlas_world)
    as [Hnone _].
  destruct (find_location_in_string_effect (PyStr "eden") 80 atlas_world)
    as [_ [_ Hret]].
  split.
  - apply Hnone. reflexivity.
  - apply Hret; [discriminate | discriminate | reflexivity].
Defined.

Lemma substring_pass_spec_witness :
  exists first,
    In first ["Crystal Falls"; "Crystal Cave"]
    /\ find_location_in_string (PyStr "Crystal") 80 atlas_world
       = record_hit atlas first atlas_world.
Proof.
  assert (Hs : "Crystal" <> "") by discriminate.
  destruct (substring_pass_spec atlas_world atlas "Crystal" 80 eq_refl Hs)
    as [_ [Hsel _]].
  destruct (Hsel (or_intror eq_refl))
    as [first [before [after [_ [_ [Hin Hfind]]]]]].
  exists first. split; [exact Hin | exact Hfind].
Defined.

Lemma phrase_pass_spec_witness :
  find_location_in_string (PyStr "crystal falls is beautiful") 80 falls_world
  = record_hit [("Crystal Falls", colony)] "Crystal Falls" falls_world.
Proof.
  assert (Hs : "crystal falls is beautiful" <> "") by discriminate.
  destruct (phrase_pass_spec falls_world [("Crystal Falls", colony)]
              "crystal falls is beautiful" 80 eq_refl Hs
              (or_introl eq_refl))
    as [[Hneg _] | [best [Hbest Hacc]]].
  - exfalso. specialize (Hneg "Crystal Falls" (or_introl eq_refl)).
    vm_compute in Hneg. discriminate Hneg.
  - destruct Hbest as [before [after [Hnames _]]].
    assert (Hb : best = "Crystal Falls").
    { destruct before as [|b before]; simpl in Hnames.
      - now injection Hnames.
      - destruct before; discriminate Hnames. }
    subst best. cbv zeta in Hacc. apply (proj1 Hacc). split.
    + vm_compute. discriminate.
    + left. exists "", " is beautiful". reflexivity.
Defined.

Lemma single_word_pass_spec_witness :
  exists m,
    In m ["eden prime"; "crystal falls"]
    /\ single_word_pass lower_atlas 80 ["to"; "edenn"] atlas_world
       = record_hit lower_atlas m atlas_world.
Proof.
  destruct (single_word_pass_spec lower_atlas 80 ["to"; "edenn"] atlas_world)
    as [Hyes _].
  destruct (Hyes ["to"] "edenn" [] eq_refl) as [m [Hin [_ [_ Hrun]]]].
  - intros u [<-|[]]. vm_compute. discriminate.
  - vm_compute. reflexivity.
  - exists m. split; [exact Hin | exact Hrun].
Defined.

(** C4 (as stated) fails: for the input word ["bora"] exactly one distinct
    name, ["bora bora"], has a qualifying word (and no name has one for the
    earlier word ["visit"]), yet the resolver finds nothing: both words of
    the name qualify, the name is appended twice and the test
    [len(matches) == 1] fails. *)
Lemma single_word_pass_counts_a_name_twice :
  let locs := [("bora bora", mkLocation "3" "1A2B3C4D5E6F" 0 "x")] in
  let w := {| file := Stored locs; writable := true; writes := 0 |} in
  PyStr.split (PyStr.lower "visit bora") = ["visit"; "bora"]
  /\ qualifying_names 80 (PyDict.keys locs) "visit" = []
  /\ qualifying_names 80 (PyDict.keys locs) "bora" = ["bora bora"]
  /\ word_matches 80 (PyDict.keys locs) "bora" = ["bora bora"; "bora bora"]
  /\ find_location_in_string (PyStr "visit bora") 80 w = (Ok None, w).
Proof. vm_compute. repeat split. Qed.

End Runs.

(** * Further properties of the registry *)

(** ** Saving and loading *)



(** X2: on a store that cannot be written [save_locations] raises and the
    operations that save pass the exception on with the file untouched: a
    registration that would succeed and a resolver hit both raise
    [PermissionError] and leave the world as it was. *)
Theorem unwritable_store_propagates w locs name g a d m :
  loads w locs -> writable w = false ->
  save_locations locs w = (Raise PermissionError, w)
  /\ (~ name_taken locs name -> ~ pair_key_taken locs g a ->
      register_location name g a d w = (Raise PermissionError, w))
  /\ (In m (PyDict.keys locs) ->
      record_hit locs m w = (Raise PermissionError, w)).
Proof.
  intros Hl Hw. split; [|split].
  - unfold save_locations. now rewrite Hw.
  - intros Hn Hp. rewrite (register_location_run _ _ _ _ _ _ Hl), Hw.
    replace (_ || _) with false; [reflexivity|].
    symmetry. apply orb_false_iff. split.
    + destruct (PyStr.mem _ (map PyStr.lower _)) eqn:E; [|reflexivity].
      apply name_taken_mem in E. contradiction.
    + destruct (PyStr.mem _ (map loc_pair_key _)) eqn:E; [|reflexivity].
      apply pair_key_taken_mem in E. contradiction.
  - intros Hm. destruct (In_keys_get _ _ Hm) as [loc Hg].
    rewrite (record_hit_run _ _ _ _ Hg), Hw. reflexivity.
Qed.

Lemma unwritable_store_propagates_witness :
  let w := {| file := Stored atlas; writable := false; writes := 2 |} in
  register_location "Nova" "3" "4A2B3C4D5E6F" "x" w
  = (Raise PermissionError, w).
Proof.
  cbv zeta.
  refine (proj1 (proj2
    (unwritable_store_propagates
       {| file := Stored atlas; writable := false; writes := 2 |} atlas
       "Nova" "3" "4A2B3C4D5E6F" "x" "Eden Prime" eq_refl eq_refl)) _ _).
  - intros [n [Hin Hl]]. simpl in Hin.
    destruct Hin as [<-|[<-|[<-|[]]]]; discriminate Hl.
  - intros [r [Hin Hk]]. simpl in Hin.
    destruct Hin as [<-|[<-|[<-|[]]]]; discriminate Hk.
Defined.

(** ** Ranking *)

Lemma StronglySorted_app_order {A} (R : A -> A -> Prop) (l1 l2 : list A) :
  StronglySorted R (l1 ++ l2) ->
  StronglySorted R l1
  /\ forall x y, In x l1 -> In y l2 -> R x y.
Proof.
  induction l1 as [|a l1 IH]; simpl; intros Hs.
  - split; [constructor | intros x y []].
  - inversion Hs as [|? ? Hl Ha]; subst.
    destruct (IH Hl) as [Hs1 Hord]. split.
    + constructor; [assumption|].
      rewrite Forall_forall in Ha |- *. intros x Hx.
      apply Ha. apply in_or_app. now left.
    + intros x y [<-|Hx] Hy.
      * rewrite Forall_forall in Ha. apply Ha. apply in_or_app. now right.
      * now apply Hord.
Qed.

(** X3: for an argument that converts to an integer [n >= 0],
    [list_top_locations] reads the store without changing it and returns
    [min n (size of the registry)] records, in descending order of
    [num_returns]; every record it leaves out has a counter no larger than
    every record it returns. *)
Theorem list_top_locations_top w locs num :
  loads w locs ->
  0 <= int_or_zero num ->
  exists top rest,
    list_top_locations num w = (Ok (map entry_of top), w)
    /\ Permutation (top ++ rest) locs
    /\ length top = Nat.min (Z.to_nat (int_or_zero num)) (length locs)
    /\ StronglySorted (ge_key returns_of) top
    /\ (forall x y, In x top -> In y rest -> returns_of y <= returns_of x).
Proof.
  intros Hl Hn.
  set (n := Z.to_nat (int_or_zero num)).
  set (ranking := sorted_desc returns_of locs).
  exists (firstn n ranking), (skipn n ranking).
  assert (Hsorted : StronglySorted (ge_key returns_of)
                      (firstn n ranking ++ skipn n ranking)).
  { rewrite firstn_skipn. apply sorted_desc_sorted. }
  destruct (StronglySorted_app_order _ _ _ Hsorted) as [Htop Hord].
  split; [|split; [|split; [|split]]].
  - rewrite (list_top_locations_run _ _ _ Hl). unfold slice_to.
    destruct (Z.leb_spec 0 (int_or_zero num)); [reflexivity | lia].
  - rewrite firstn_skipn. apply sorted_desc_perm.
  - rewrite length_firstn. unfold ranking.
    now rewrite (Permutation_length (sorted_desc_perm returns_of locs)).
  - exact Htop.
  - exact Hord.
Qed.

Lemma list_top_locations_top_witness :
  exists top rest,
    list_top_locations (PyStr "2") atlas_world
    = (Ok (map entry_of top), atlas_world)
    /\ length top = 2%nat
    /\ (forall x y, In x top -> In y rest -> returns_of y <= returns_of x).
Proof.
  destruct (list_top_locations_top atlas_world atlas (PyStr "2") eq_refl)
    as [top [rest [Hrun [_ [Hlen [_ Hord]]]]]].
  - vm_compute. discriminate.
  - exists top, rest. repeat split; assumption.
Defined.

(** X4: for a negative integer [n], [list_top_locations] returns the ranking
    without its last [|n|] records: [size - |n|] records when the registry
    holds more than [|n|], none otherwise. *)
Theorem list_top_locations_negative_length w locs z :
  loads w locs ->
  z < 0 ->
  exists top,
    list_top_locations (PyInt z) w = (Ok (map entry_of top), w)
    /\ top = firstn (length locs - Z.to_nat (- z))
                    (sorted_desc returns_of locs)
    /\ length top = (length locs - Z.to_nat (- z))%nat.
Proof.
  intros Hl Hz. eexists. split; [|split; [reflexivity|]].
  - exact (list_top_locations_negative _ _ _ Hl Hz).
  - rewrite length_firstn.
    rewrite (Permutation_length (sorted_desc_perm returns_of locs)). lia.
Qed.

Lemma list_top_locations_negative_length_witness :
  exists top,
    list_top_locations (PyInt (-1)) atlas_world
    = (Ok (map entry_of top), atlas_world)
    /\ length top = 2%nat.
Proof.
  destruct (list_top_locations_negative_length atlas_world atlas (-1) eq_refl)
    as [top [Hrun [_ Hlen]]].
  - reflexivity.
  - exists top. split; assumption.
Defined.

(** ** Registration keeps the registry well formed *)

Lemma lower_char_idem c : PyStr.lower_char (PyStr.lower_char c) = PyStr.lower_char c.
Proof. destruct c as [[] [] [] [] [] [] [] []]; reflexivity. Qed.

Lemma lower_idem s : PyStr.lower (PyStr.lower s) = PyStr.lower s.
Proof.
  induction s as [|c s IH]; simpl; [reflexivity|].
  now rewrite lower_char_idem, IH.
Qed.

Lemma NoDup_snoc {A} (l : list A) (x : A) :
  NoDup l -> ~ In x l -> NoDup (l ++ [x]).
Proof.
  intros Hl Hx. induction Hl as [|y l Hy Hl IH]; simpl.
  - constructor; [intros [] | constructor].
  - constructor.
    + intros Hin. apply in_app_or in Hin. destruct Hin as [Hin|[Heq|[]]].
      * contradiction.
      * apply Hx. now left.
    + apply IH. intros Hin. apply Hx. now right.
Qed.

(** A registration that returns was decided on a loaded collection. *)
Lemma register_location_returned w name g a d r w' :
  register_location name g a d w = (Ok r, w') ->
  exists locs, loads w locs.
Proof.
  unfold register_location, bind, loads.
  rewrite (load_locations_cases w).
  destruct (file w) as [| | | |locs]; try discriminate; intros _.
  - now exists [].
  - now exists [].
  - now exists locs.
Qed.

Lemma register_location_success w locs name g a d w' :
  loads w locs ->
  register_location name g a d w = (Ok true, w') ->
  ~ name_taken locs name
  /\ ~ pair_key_taken locs g a
  /\ w' = saved w (locs ++ [(name, new_location g a d)]).
Proof.
  intros Hl. rewrite (register_location_run _ _ _ _ _ _ Hl).
  destruct (PyStr.mem _ (map PyStr.lower _)) eqn:En; [discriminate|].
  destruct (PyStr.mem _ (map loc_pair_key _)) eqn:Ep; [discriminate|].
  cbn [orb]. destruct (writable w); [|discriminate].
  intros [= <-].
  assert (Hn : ~ name_taken locs name).
  { intros Ht. apply name_taken_mem in Ht. congruence. }
  assert (Hp : ~ pair_key_taken locs g a).
  { intros Ht. apply pair_key_taken_mem in Ht. congruence. }
  repeat split; try assumption.
  now rewrite set_fresh by now apply not_taken_fresh.
Qed.

Lemma register_location_failure w locs name g a d w' :
  loads w locs ->
  register_location name g a d w = (Ok false, w') ->
  w' = w.
Proof.
  intros Hl. rewrite (register_location_run _ _ _ _ _ _ Hl).
  destruct (_ || _); [now intros [= <-]|].
  destruct (writable w); discriminate.
Qed.

(** X5: registration preserves the registry invariant.  If the stored names
    are pairwise different up to letter case and the stored lower-cased
    ["galaxy-address"] strings are pairwise different, the same holds for the
    collection stored after any call of [register_location] that returns; a
    refused call stores nothing, an accepted one appends one record. *)
Theorem register_location_keeps_registry_ok w locs name g a d r w' :
  loads w locs ->
  registry_ok locs ->
  register_location name g a d w = (Ok r, w') ->
  exists locs',
    loads w' locs'
    /\ registry_ok locs'
    /\ (r = false -> w' = w /\ locs' = locs)
    /\ (r = true -> locs' = locs ++ [(name, new_location g a d)]).
Proof.
  intros Hl [Hnames Hpairs] Hreg. destruct r.
  - destruct (register_location_success _ _ _ _ _ _ _ Hl Hreg)
      as [Hn [Hp ->]].
    exists (locs ++ [(name, new_location g a d)]).
    split; [reflexivity | split; [|split; [discriminate | reflexivity]]].
    unfold registry_ok, PyDict.keys, PyDict.values.
    rewrite !map_app. simpl. split; apply NoDup_snoc; try assumption.
    + intros Hin. apply in_map_iff in Hin. destruct Hin as [n [Heq Hin]].
      apply Hn. now exists n.
    + intros Hin. apply in_map_iff in Hin. destruct Hin as [x [Heq Hin]].
      apply Hp. now exists x.
  - rewrite (register_location_failure _ _ _ _ _ _ _ Hl Hreg).
    exists locs. repeat split; try assumption. discriminate.
Qed.

Lemma register_location_keeps_registry_ok_witness :
  exists locs',
    loads (snd (register_location "Nova" "3" "4A2B3C4D5E6F" "x" atlas_world))
          locs'
    /\ registry_ok locs'.
Proof.
  assert (Hok : registry_ok atlas).
  { split; simpl; repeat constructor; simpl; intuition discriminate. }
  destruct (register_location_keeps_registry_ok atlas_world atlas
              "Nova" "3" "4A2B3C4D5E6F" "x" true
              (snd (register_location "Nova" "3" "4A2B3C4D5E6F" "x"
                      atlas_world))
              eq_refl Hok eq_refl) as [locs' [Hl [Hr _]]].
  exists locs'. split; assumption.
Defined.

(** X6: once a registration has succeeded, every later registration under a
    name that differs from the registered one in letter case only, or with a
    galaxy and address giving the same lower-cased ["galaxy-address"] string,
    is refused and stores nothing. *)
Theorem register_location_blocks_reuse w name g a d w' name' g' a' d' :
  register_location name g a d w = (Ok true, w') ->
  PyStr.lower name' = PyStr.lower name \/ pair_key g' a' = pair_key g a ->
  register_location name' g' a' d' w' = (Ok false, w').
Proof.
  intros Hreg Hsame.
  destruct (register_location_returned _ _ _ _ _ _ _ Hreg) as [locs Hl].
  destruct (register_location_success _ _ _ _ _ _ _ Hl Hreg) as [_ [_ ->]].
  apply (register_location_refused _ (locs ++ [(name, new_location g a d)]));
    [reflexivity|].
  destruct Hsame as [Hn|Hp]; [left | right].
  - exists name. split; [|now symmetry].
    unfold PyDict.keys. rewrite map_app. apply in_or_app. right. now left.
  - exists (new_location g a d). split; [|now symmetry].
    unfold PyDict.values. rewrite map_app. apply in_or_app. right. now left.
Qed.

Lemma register_location_blocks_reuse_witness :
  let w' := snd (register_location "Nova" "3" "4a2b3c4d5e6f" "x" atlas_world) in
  register_location "NOVA" "7" "5A2B3C4D5E6F" "y" w' = (Ok false, w')
  /\ register_location "Other" "3" "4A2B3C4D5E6F" "z" w' = (Ok false, w').
Proof.
  cbv zeta. split.
  - apply (register_location_blocks_reuse atlas_world
             "Nova" "3" "4a2b3c4d5e6f" "x" _ "NOVA" "7" "5A2B3C4D5E6F" "y"
             eq_refl).
    left. reflexivity.
  - apply (register_location_blocks_reuse atlas_world
             "Nova" "3" "4a2b3c4d5e6f" "x" _ "Other" "3" "4A2B3C4D5E6F" "z"
             eq_refl).
    right. reflexivity.
Defined.

(** ** Modification after registration *)

(** X7: a name registered with an upper-case letter cannot be modified under
    that name, since [modify_location] looks the lower-cased argument up as a
    key: the call reports failure and changes nothing.  A name that is its
    own lower-case form is found, and the call succeeds when given the
    registered galaxy and address. *)
Theorem register_then_modify w name g a d w' ng na nd :
  register_location name g a d w = (Ok true, w') ->
  (PyStr.lower name <> name ->
   modify_location name g a ng na nd w' = (Ok false, w'))
  /\ (PyStr.lower name = name ->
      exists w'', modify_location name g a ng na nd w' = (Ok true, w'')).
Proof.
  intros Hreg.
  destruct (register_location_returned _ _ _ _ _ _ _ Hreg) as [locs Hl].
  destruct (register_location_success _ _ _ _ _ _ _ Hl Hreg) as [Hn [_ ->]].
  set (locs' := locs ++ [(name, new_location g a d)]).
  assert (Hl' : loads (saved w locs') locs') by reflexivity.
  assert (Hfresh : ~ In (PyStr.lower name) (PyDict.keys locs)).
  { intros Hin. apply Hn. exists (PyStr.lower name).
    split; [assumption | apply lower_idem]. }
  split.
  - intros Hne. apply (modify_location_not_found _ locs'); [exact Hl'|].
    unfold locs', PyDict.keys. rewrite map_app. intros Hin.
    apply in_app_or in Hin. destruct Hin as [Hin|[Heq|[]]].
    + now apply Hfresh.
    + simpl in Heq. congruence.
  - intros Heq.
    rewrite (modify_location_run _ _ _ _ _ _ _ _ Hl').
    assert (Hg : PyDict.get locs' (PyStr.lower name)
                 = Some (new_location g a d)).
    { unfold locs'.
      replace (locs ++ [(name, new_location g a d)])
        with (locs ++ (PyStr.lower name, new_location g a d) :: [])
        by now rewrite Heq.
      now apply get_split_eq. }
    rewrite Hg. cbn [galaxy address new_location].
    rewrite !String.eqb_refl. cbn [negb orb].
    destruct (supplied ng na nd); eexists; reflexivity.
Qed.

Lemma register_then_modify_witness :
  let w' := snd (register_location "Nova Prime" "3" "4A2B3C4D5E6F" "x"
                   atlas_world) in
  modify_location "Nova Prime" "3" "4A2B3C4D5E6F" (Some "9") None None w'
  = (Ok false, w').
Proof.
  cbv zeta.
  refine (proj1 (register_then_modify atlas_world
                   "Nova Prime" "3" "4A2B3C4D5E6F" "x" _
                   (Some "9") None None eq_refl) _).
  discriminate.
Defined.

(** ** The old-value guard of [modify_location] *)

Lemma stale_guard (loc : Location) (og oa : string) :
  galaxy loc <> og \/ address loc <> oa ->
  negb (galaxy loc =? og)%string || negb (address loc =? oa)%string = true.
Proof.
  intros Hstale. apply orb_true_iff.
  destruct Hstale as [Hs|Hs]; [left | right];
    apply negb_true_iff; now apply String.eqb_neq.
Qed.

(** X8: when the record is found but its galaxy or its address differs from
    the supplied old values, [modify_location] reports failure and neither
    changes a record nor writes the file, whatever new values it is given. *)
Theorem modify_location_stale w locs name og oa ng na nd loc :
  loads w locs ->
  PyDict.get locs (PyStr.lower name) = Some loc ->
  galaxy loc <> og \/ address loc <> oa ->
  modify_location name og oa ng na nd w = (Ok false, w).
Proof.
  intros Hl Hg Hstale.
  rewrite (modify_location_run _ _ _ _ _ _ _ _ Hl), Hg.
  now rewrite (stale_guard _ _ _ Hstale).
Qed.

Lemma modify_location_stale_witness :
  modify_location "eden prime" "2" "3A2B3C4D5E6F" None None (Some "new")
    {| file := Stored lower_atlas; writable := true; writes := 0 |}
  = (Ok false,
     {| file := Stored lower_atlas; writable := true; writes := 0 |}).
Proof.
  apply (modify_location_stale
           {| file := Stored lower_atlas; writable := true; writes := 0 |}
           lower_atlas "eden prime" "2" "3A2B3C4D5E6F" None None (Some "new")
           garden eq_refl eq_refl).
  left. discriminate.
Defined.

(** X9: a successful modification that changes the galaxy or the address
    makes the old values stale: repeating the same call afterwards fails and
    changes nothing. *)
Theorem modify_location_not_repeatable w locs name ng na nd loc :
  loads w locs ->
  writable w = true ->
  PyDict.get locs (PyStr.lower name) = Some loc ->
  or_keep ng (galaxy loc) <> galaxy loc
  \/ or_keep na (address loc) <> address loc ->
  exists w',
    modify_location name (galaxy loc) (address loc) ng na nd w = (Ok true, w')
    /\ modify_location name (galaxy loc) (address loc) ng na nd w'
       = (Ok false, w').
Proof.
  intros Hl Hw Hg Hchange.
  assert (Hs : supplied ng na nd = true).
  { unfold supplied. destruct ng, na; try reflexivity.
    simpl in Hchange. destruct Hchange; congruence. }
  set (locs' := PyDict.set locs (PyStr.lower name) (modified loc ng na nd)).
  exists (saved w locs'). split.
  - rewrite (modify_location_run _ _ _ _ _ _ _ _ Hl), Hg.
    rewrite !String.eqb_refl. cbn [negb orb]. now rewrite Hs, Hw.
  - assert (Hl' : loads (saved w locs') locs') by reflexivity.
    rewrite (modify_location_run _ _ _ _ _ _ _ _ Hl').
    unfold locs' at 1. rewrite get_set_same.
    rewrite stale_guard; [reflexivity|].
    destruct (modified_fields loc ng na nd) as [F1 [F2 _]].
    rewrite F1, F2. exact Hchange.
Qed.

Lemma modify_location_not_repeatable_witness :
  exists w',
    modify_location "eden prime" "1" "3A2B3C4D5E6F" (Some "9") None None
      {| file := Stored lower_atlas; writable := true; writes := 0 |}
    = (Ok true, w')
    /\ modify_location "eden prime" "1" "3A2B3C4D5E6F" (Some "9") None None w'
       = (Ok false, w').
Proof.
  apply (modify_location_not_repeatable
           {| file := Stored lower_atlas; writable := true; writes := 0 |}
           lower_atlas "eden prime" (Some "9") None None garden
           eq_refl eq_refl eq_refl).
  left. discriminate.
Defined.

Lemma set_In_other (d : Locations) (k k2 : string) (v v2 : Location) :
  k2 <> k -> In (k2, v2) d -> In (k2, v2) (PyDict.set d k v).
Proof.
  intros Hne. induction d as [|[k0 v0] d IH]; simpl; [intros []|].
  destruct (String.eqb_spec k k0) as [->|Hk].
  - intros [[= <- <-]|Hin]; [contradiction | now right].
  - intros [Heq|Hin]; [now left | right; auto].
Qed.

Lemma set_In_same (d : Locations) (k : string) (v : Location) :
  In (k, v) (PyDict.set d k v).
Proof.
  induction d as [|[k0 v0] d IH]; simpl; [now left|].
  destruct (String.eqb_spec k k0) as [->|Hk]; [now left | now right].
Qed.

(** X10: [modify_location] does not compare the new galaxy and address with
    the other records: moving a record onto the galaxy and address of another
    record succeeds, and the stored registry then holds two records with the
    same pair. *)
Theorem modify_location_allows_duplicate_pair w locs name loc k2 r2 :
  loads w locs ->
  writable w = true ->
  PyDict.get locs (PyStr.lower name) = Some loc ->
  In (k2, r2) locs ->
  k2 <> PyStr.lower name ->
  exists w' locs' loc',
    modify_location name (galaxy loc) (address loc)
      (Some (galaxy r2)) (Some (address r2)) None w = (Ok true, w')
    /\ loads w' locs'
    /\ In (PyStr.lower name, loc') locs'
    /\ In (k2, r2) locs'
    /\ galaxy loc' = galaxy r2 /\ address loc' = address r2.
Proof.
  intros Hl Hw Hg Hin Hne.
  set (loc' := modified loc (Some (galaxy r2)) (Some (address r2)) None).
  set (locs' := PyDict.set locs (PyStr.lower name) loc').
  exists (saved w locs'), locs', loc'.
  split; [|split; [reflexivity | split; [|split; [|split; reflexivity]]]].
  - rewrite (modify_location_run _ _ _ _ _ _ _ _ Hl), Hg.
    rewrite !String.eqb_refl. cbn [negb orb supplied is_some].
    now rewrite Hw.
  - apply set_In_same.
  - now apply set_In_other.
Qed.

Lemma modify_location_allows_duplicate_pair_witness :
  exists w' locs' loc',
    modify_location "eden prime" "1" "3A2B3C4D5E6F"
      (Some "2") (Some "1A2B3C4D5E6F") None
      {| file := Stored lower_atlas; writable := true; writes := 0 |}
    = (Ok true, w')
    /\ loads w' locs'
    /\ In ("eden prime", loc') locs'
    /\ In ("crystal falls", colony) locs'
    /\ galaxy loc' = galaxy colony /\ address loc' = address colony.
Proof.
  apply (modify_location_allows_duplicate_pair
           {| file := Stored lower_atlas; writable := true; writes := 0 |}
           lower_atlas "eden prime" garden "crystal falls" colony
           eq_refl eq_refl eq_refl).
  - right. left. reflexivity.
  - discriminate.
Defined.

(** ** The resolver on an empty registry *)

Section EmptyRegistry.

Context `{Scorer}.

Lemma single_word_pass_no_names threshold words w :
  single_word_pass [] threshold words w = (Ok None, w).
Proof. induction words as [|word rest IH]; [reflexivity | exact IH]. Qed.

(** X11: with no record to match (the file is absent, is not JSON, or holds
    an empty object) [find_location_in_string] returns no match for every
    input and every threshold, whatever the scorers, and writes nothing. *)
Theorem find_location_in_string_empty_registry input threshold w :
  loads w [] ->
  find_location_in_string input threshold w = (Ok None, w).
Proof.
  intros Hl. destruct input as [| |s]; try reflexivity.
  destruct (string_dec s "") as [->|Hs]; [reflexivity|].
  rewrite (find_location_in_string_run _ _ _ _ Hl Hs).
  cbn. apply single_word_pass_no_names.
Qed.

End EmptyRegistry.

Lemma find_location_in_string_empty_registry_witness :
  @find_location_in_string RefScorer.scorer (PyStr "crystal falls") 80
    {| file := Absent; writable := true; writes := 0 |}
  = (Ok None, {| file := Absent; writable := true; writes := 0 |}).
Proof.
  apply (@find_location_in_string_empty_registry RefScorer.scorer).
  reflexivity.
Defined.

(** * Addresses, galaxy designators and URLs *)

(** ** Character facts *)

Ltac each_char c := destruct c as [[] [] [] [] [] [] [] []]; reflexivity.

Lemma char_in_hex c :
  PyText.char_in c "0123456789ABCDEFabcdef" = is_hex_digit c.
Proof. each_char c. Qed.

Lemma char_in_one_to_six c : PyText.char_in c "123456" = is_one_to_six c.
Proof. each_char c. Qed.

Lemma is_hex_digit_upper c : is_hex_digit (PyText.upper_char c) = is_hex_digit c.
Proof. each_char c. Qed.




Lemma upper_hex_is_upper c :
  is_hex_digit c = true -> is_upper_hex_digit (PyText.upper_char c) = true.
Proof. destruct c as [[] [] [] [] [] [] [] []]; intros Hc; try reflexivity; discriminate Hc. Qed.



Lemma upper_chars s :
  list_ascii_of_string (PyText.upper s)
  = map PyText.upper_char (list_ascii_of_string s).
Proof. induction s as [|c s IH]; simpl; congruence. Qed.


Lemma forallb_pointwise {A} (f g : A -> bool) (l : list A) :
  (forall x, f x = g x) -> forallb f l = forallb g l.
Proof.
  intros Hfg. induction l as [|x l IH]; simpl; [reflexivity|].
  now rewrite Hfg, IH.
Qed.

Lemma forallb_through_map {A B} (f : B -> bool) (g : A -> B) (l : list A) :
  forallb f (map g l) = forallb (fun x => f (g x)) l.
Proof.
  induction l as [|x l IH]; simpl; [reflexivity | now rewrite IH].
Qed.

(** ** [validate_address] *)

Lemma validate_address_run a :
  validate_address a =
  (String.length a =? 12)%nat
  && all_chars is_hex_digit a
  && match a with
     | String first _ => is_one_to_six first
     | EmptyString => false
     end.
Proof.
  unfold validate_address, all_chars.
  rewrite (forallb_pointwise _ _ _ char_in_hex).
  destruct (String.length a =? 12)%nat; [|reflexivity].
  destruct (forallb is_hex_digit (list_ascii_of_string a)); [|reflexivity].
  destruct a as [|first rest]; [reflexivity|].
  rewrite char_in_one_to_six. now destruct (is_one_to_six first).
Qed.

(** X12: [validate_address] accepts an address exactly when it has twelve
    characters, all of them hexadecimal digits (in either letter case), the
    first one being a digit from 1 to 6. *)
Theorem validate_address_spec a :
  validate_address a = true
  <-> String.length a = 12%nat
      /\ (forall c, In c (list_ascii_of_string a) -> is_hex_digit c = true)
      /\ exists first rest,
           a = String first rest /\ is_one_to_six first = true.
Proof.
  rewrite validate_address_run, !andb_true_iff, Nat.eqb_eq.
  unfold all_chars. rewrite forallb_forall. split.
  - intros [[Hlen Hhex] Hfirst]. repeat split; try assumption.
    destruct a as [|first rest]; [discriminate|]. now exists first, rest.
  - intros [Hlen [Hhex [first [rest [-> Hfirst]]]]]. now repeat split.
Qed.



(** ** [find_location_by_galaxy_address] *)

Lemma has_pair_true g a r :
  has_pair g a r = true <-> galaxy r = g /\ address r = a.
Proof.
  unfold has_pair. now rewrite andb_true_iff, !String.eqb_eq.
Qed.

Lemma find_first {A} (p : A -> bool) (l : list A) (x : A) :
  find p l = Some x ->
  exists before after,
    l = before ++ x :: after
    /\ (forall y, In y before -> p y = false)
    /\ p x = true.
Proof.
  induction l as [|y l IH]; simpl; [discriminate|].
  destruct (p y) eqn:Hy.
  - intros [= ->]. exists [], l. repeat split; auto. intros ? [].
  - intros Hf. destruct (IH Hf) as [before [after [Hl [Hb Hx]]]].
    exists (y :: before), after. repeat split; auto.
    + simpl. now rewrite Hl.
    + intros z [<-|Hz]; auto.
Qed.

Lemma find_last {A} (p : A -> bool) (l : list A) (x : A) :
  (forall y, In y l -> p y = false) -> p x = true ->
  find p (l ++ [x]) = Some x.
Proof.
  intros Hl Hx. induction l as [|y l IH]; simpl.
  - now rewrite Hx.
  - rewrite (Hl y) by now left. apply IH. intros z Hz. apply Hl. now right.
Qed.

Lemma find_location_by_galaxy_address_run w locs g a :
  loads w locs ->
  find_location_by_galaxy_address g a w
  = (Ok (find (has_pair g a) (PyDict.values locs)), w).
Proof.
  intros Hl. unfold find_location_by_galaxy_address, bind. now rewrite Hl.
Qed.

(** X14: the lookup by galaxy and address returns the first record, in
    registry order, whose galaxy and address both equal the arguments, and
    nothing when no record has that pair; it never changes the store.
    Whenever it finds a record, registering that galaxy and address under any
    name is refused. *)
Theorem find_location_by_galaxy_address_spec w locs g a :
  loads w locs ->
  (~ pair_taken locs g a ->
   find_location_by_galaxy_address g a w = (Ok None, w))
  /\ (forall r,
         find_location_by_galaxy_address g a w = (Ok (Some r), w) ->
         (exists before after,
             PyDict.values locs = before ++ r :: after
             /\ forall x, In x before ->
                          ~ (galaxy x = g /\ address x = a))
         /\ galaxy r = g /\ address r = a
         /\ forall name d, register_location name g a d w = (Ok false, w))
  /\ (pair_taken locs g a ->
      exists r, find_location_by_galaxy_address g a w = (Ok (Some r), w)).
Proof.
  intros Hl. rewrite (find_location_by_galaxy_address_run _ _ _ _ Hl).
  split; [|split].
  - intros Hn.
    destruct (find (has_pair g a) (PyDict.values locs)) as [r|] eqn:Hf;
      [|reflexivity].
    exfalso. apply Hn. apply find_some in Hf. destruct Hf as [Hin Hp].
    apply has_pair_true in Hp. now exists r.
  - intros r [= Hf].
    destruct (find_first _ _ _ Hf) as [before [after [Hv [Hb Hp]]]].
    apply has_pair_true in Hp. destruct Hp as [Hg Ha].
    split; [|split; [exact Hg | split; [exact Ha|]]].
    + exists before, after. split; [exact Hv|].
      intros x Hx Hpair. apply has_pair_true in Hpair.
      rewrite (Hb x Hx) in Hpair. discriminate.
    + intros name d. apply (register_location_refused _ _ _ _ _ _ Hl).
      right. apply pair_taken_key. exists r. split; [|now split].
      rewrite Hv. apply in_or_app. right. now left.
  - intros [r [Hin [Hg Ha]]].
    destruct (find (has_pair g a) (PyDict.values locs)) as [r'|] eqn:Hf;
      [now exists r'|].
    pose proof (find_none _ _ Hf r Hin) as Hno.
    assert (Hyes : has_pair g a r = true) by now apply has_pair_true.
    congruence.
Qed.

Lemma find_location_by_galaxy_address_spec_witness :
  find_location_by_galaxy_address "9" "1A2B3C4D5E6F" atlas_world
  = (Ok None, atlas_world).
Proof.
  apply (proj1 (find_location_by_galaxy_address_spec atlas_world atlas
                  "9" "1A2B3C4D5E6F" eq_refl)).
  intros [r [Hin [Hg _]]]. simpl in Hin.
  destruct Hin as [<-|[<-|[<-|[]]]]; discriminate Hg.
Defined.

(** X15: a record that has just been registered is the one that the lookup
    by its galaxy and address returns. *)
Theorem register_then_lookup w name g a d w' :
  register_location name g a d w = (Ok true, w') ->
  find_location_by_galaxy_address g a w'
  = (Ok (Some (new_location g a d)), w').
Proof.
  intros Hreg.
  destruct (register_location_returned _ _ _ _ _ _ _ Hreg) as [locs Hl].
  destruct (register_location_success _ _ _ _ _ _ _ Hl Hreg) as [_ [Hp ->]].
  assert (Hl' : loads (saved w (locs ++ [(name, new_location g a d)]))
                      (locs ++ [(name, new_location g a d)])) by reflexivity.
  rewrite (find_location_by_galaxy_address_run _ _ _ _ Hl').
  unfold PyDict.values. rewrite map_app. simpl map at 2.
  rewrite find_last; [reflexivity | |].
  - intros r Hin. destruct (has_pair g a r) eqn:Hr; [|reflexivity].
    exfalso. apply Hp. apply pair_taken_key. exists r.
    apply has_pair_true in Hr. now split.
  - apply has_pair_true. now split.
Qed.

Lemma register_then_lookup_witness :
  find_location_by_galaxy_address "3" "4A2B3C4D5E6F"
    (snd (register_location "Nova" "3" "4A2B3C4D5E6F" "x" atlas_world))
  = (Ok (Some (new_location "3" "4A2B3C4D5E6F" "x")),
     snd (register_location "Nova" "3" "4A2B3C4D5E6F" "x" atlas_world)).
Proof.
  apply (register_then_lookup atlas_world "Nova" "3" "4A2B3C4D5E6F" "x").
  reflexivity.
Defined.

(** ** [check_galaxy_mention] *)

Lemma span_split p s a b :
  PyText.span p s = (a, b) ->
  s = (a ++ b)%string /\ all_chars p a = true.
Proof.
  revert a b. induction s as [|c s IH]; simpl; intros a b.
  - intros [= <- <-]. split; reflexivity.
  - destruct (p c) eqn:Hc.
    + destruct (PyText.span p s) as [a' b'] eqn:Hs. intros [= <- <-].
      destruct (IH _ _ eq_refl) as [-> Ha]. split; [reflexivity|].
      unfold all_chars in *. simpl. now rewrite Hc.
    + intros [= <- <-]. split; reflexivity.
Qed.


Lemma isdigit_all ds :
  PyText.isdigit ds = true
  <-> ds <> EmptyString /\ all_chars PyText.isdigit_char ds = true.
Proof.
  unfold PyText.isdigit, all_chars. destruct ds as [|c ds].
  - split; [discriminate | intros [Hn _]; contradiction].
  - split; [intros Hd; split; [discriminate | exact Hd] | now intros [_ Hd]].
Qed.

Lemma match_galaxy_here_digits s ds :
  match_galaxy_here s = Some ds -> PyText.isdigit ds = true.
Proof.
  unfold match_galaxy_here. destruct (String.prefix "galaxy" s); [|discriminate].
  destruct (PyText.span PyStr.isspace (PyText.drop 6 s)) as [spaces rest].
  destruct spaces; [discriminate|].
  destruct (PyText.span PyText.isdigit_char rest) as [digits tail] eqn:Hd.
  destruct digits as [|c digits]; [discriminate|]. intros [= <-].
  apply isdigit_all. split; [discriminate|].
  exact (proj2 (span_split _ _ _ _ Hd)).
Qed.

Lemma search_galaxy_digits s ds :
  search_galaxy s = Some ds -> PyText.isdigit ds = true.
Proof.
  induction s as [|c s IH]; cbn [search_galaxy].
  - destruct (match_galaxy_here "") eqn:Hm; [|discriminate].
    intros [= <-]. exact (match_galaxy_here_digits _ _ Hm).
  - destruct (match_galaxy_here (String c s)) eqn:Hm; [|exact IH].
    intros [= <-]. exact (match_galaxy_here_digits _ _ Hm).
Qed.

Lemma digit_not_space c : PyText.isdigit_char c = true -> PyStr.isspace c = false.
Proof. destruct c as [[] [] [] [] [] [] [] []]; intros Hc; try reflexivity; discriminate Hc. Qed.

Lemma lstrip_keeps s :
  all_chars (fun c => negb (PyStr.isspace c)) s = true -> PyStr.lstrip s = s.
Proof.
  unfold all_chars. destruct s as [|c s]; simpl; [reflexivity|].
  rewrite andb_true_iff, negb_true_iff. intros [-> _]. reflexivity.
Qed.

Lemma rstrip_keeps s :
  all_chars (fun c => negb (PyStr.isspace c)) s = true -> PyStr.rstrip s = s.
Proof.
  unfold all_chars. induction s as [|c s IH]; simpl; [reflexivity|].
  rewrite andb_true_iff, negb_true_iff. intros [Hc Hs].
  rewrite (IH Hs), Hc. now destruct s.
Qed.

Lemma strip_digits ds :
  all_chars PyText.isdigit_char ds = true -> PyStr.strip ds = ds.
Proof.
  intros Hd.
  assert (Hns : all_chars (fun c => negb (PyStr.isspace c)) ds = true).
  { unfold all_chars in *. rewrite forallb_forall in Hd |- *.
    intros c Hc. now rewrite (digit_not_space c (Hd c Hc)). }
  unfold PyStr.strip. now rewrite (lstrip_keeps _ Hns), (rstrip_keeps _ Hns).
Qed.

Lemma digit_of_digit c :
  PyText.isdigit_char c = true ->
  exists d, PyInt.digit_of c = Some d /\ 0 <= d <= 9.
Proof.
  destruct c as [[] [] [] [] [] [] [] []]; intros Hc; try discriminate Hc;
    eexists; (split; [reflexivity | cbv; split; discriminate]).
Qed.

Lemma digits_total s :
  forall acc after_digit,
    all_chars PyText.isdigit_char s = true ->
    (s <> EmptyString \/ after_digit = true) ->
    0 <= acc ->
    exists n, PyInt.digits acc after_digit s = Some n /\ 0 <= n.
Proof.
  unfold all_chars. induction s as [|c s IH]; intros acc b Hs Hne Hacc.
  - destruct Hne as [Hne | ->]; [contradiction|]. now exists acc.
  - simpl in Hs. apply andb_true_iff in Hs. destruct Hs as [Hc Hs].
    destruct (digit_of_digit c Hc) as [d [Hd Hr]].
    cbn [PyInt.digits]. rewrite Hd.
    apply IH; [exact Hs | now right | lia].
Qed.

Lemma of_str_digits ds :
  PyText.isdigit ds = true ->
  exists n, PyInt.of_str ds = Some n /\ 0 <= n.
Proof.
  intros Hd. apply isdigit_all in Hd. destruct Hd as [Hne Hall].
  unfold PyInt.of_str. rewrite (strip_digits _ Hall).
  assert (Hdig : exists n, PyInt.digits 0 false ds = Some n /\ 0 <= n)
    by (apply digits_total; [exact Hall | now left | lia]).
  destruct ds as [|c ds]; [contradiction|].
  unfold all_chars in Hall. simpl in Hall.
  apply andb_true_iff in Hall. destruct Hall as [Hc _].
  destruct c as [[] [] [] [] [] [] [] []]; try discriminate Hc; exact Hdig.
Qed.

Lemma known_galaxies_in_range name n :
  In (name, n) known_galaxies -> galaxy_in_range n = true.
Proof.
  simpl. intros Hin.
  repeat (destruct Hin as [[= <- <-]|Hin]; [reflexivity|]). destruct Hin.
Qed.

Lemma check_known_galaxies_shape text_lower :
  check_known_galaxies text_lower = (false, None, None)
  \/ exists name n,
       check_known_galaxies text_lower = (true, Some name, Some n)
       /\ galaxy_in_range n = true.
Proof.
  unfold check_known_galaxies.
  destruct (find _ known_galaxies) as [[name n]|] eqn:Hf; [|now left].
  right. exists (PyText.capitalize name), n. split; [reflexivity|].
  apply find_some in Hf. exact (known_galaxies_in_range _ _ (proj1 Hf)).
Qed.

Lemma galaxy_in_range_bounds n :
  galaxy_in_range n = true <-> 1 <= n <= 256.
Proof.
  unfold galaxy_in_range. rewrite andb_true_iff, !Z.leb_le. reflexivity.
Qed.

Lemma check_galaxy_mention_cases text :
  check_galaxy_mention text = Ok (false, None, None)
  \/ exists name n,
       check_galaxy_mention text = Ok (true, Some name, Some n)
       /\ galaxy_in_range n = true.
Proof.
  unfold check_galaxy_mention.
  destruct (search_galaxy (PyStr.lower text)) as [ds|] eqn:Hs.
  - destruct (of_str_digits ds (search_galaxy_digits _ _ Hs)) as [n [-> _]].
    fold (galaxy_in_range n). destruct (galaxy_in_range n) eqn:Hr.
    + right. do 2 eexists. split; [reflexivity | exact Hr].
    + destruct (check_known_galaxies_shape (PyStr.lower text))
        as [-> | [name [m [-> Hm]]]]; [now left|].
      right. now exists name, m.
  - destruct (check_known_galaxies_shape (PyStr.lower text))
      as [-> | [name [m [-> Hm]]]]; [now left|].
    right. now exists name, m.
Qed.



Lemma char_in_all p c s :
  all_chars p s = true -> p c = false -> PyText.char_in c s = false.
Proof.
  unfold all_chars, PyText.char_in. induction s as [|x s IH]; simpl;
    [reflexivity|].
  rewrite andb_true_iff. intros [Hx Hs] Hc. rewrite (IH Hs Hc), orb_false_r.
  destruct (Ascii.eqb_spec c x) as [->|]; [congruence | reflexivity].
Qed.


Lemma lower_digits ds :
  all_chars PyText.isdigit_char ds = true -> PyStr.lower ds = ds.
Proof.
  unfold all_chars. induction ds as [|c ds IH]; simpl; [reflexivity|].
  rewrite andb_true_iff. intros [Hc Hs]. rewrite (IH Hs). f_equal.
  destruct c as [[] [] [] [] [] [] [] []]; try discriminate Hc; reflexivity.
Qed.









(** ** [parse_glyph_url] *)




Lemma char_in_remove_from x old s :
  PyText.char_in x s = false ->
  forall skip, PyText.char_in x (PyText.remove_from old skip s) = false.
Proof.
  unfold PyText.char_in. induction s as [|c s IH]; intros Hx skip;
    [reflexivity|].
  simpl in Hx. apply orb_false_iff in Hx. destruct Hx as [Hc Hs].
  cbn [PyText.remove_from]. destruct skip as [|k]; [|now apply IH].
  destruct (String.prefix old (String c s)); [now apply IH|].
  simpl. now rewrite Hc, (IH Hs 0%nat).
Qed.

Lemma split_on_without sep s :
  PyText.char_in sep s = false -> PyText.split_on sep s = [s].
Proof.
  unfold PyText.char_in. induction s as [|c s IH]; [reflexivity|].
  simpl. intros Hs. apply orb_false_iff in Hs. destruct Hs as [Hc Hs].
  rewrite Ascii.eqb_sym, Hc, (IH Hs). reflexivity.
Qed.




(** The identifiers from 1 to 256 print as digits and read back. *)
Lemma galaxy_numbers_print n :
  1 <= n <= 256 ->
  PyText.isdigit (PyText.str_of_int n) = true
  /\ PyInt.of_str (PyText.str_of_int n) = Some n.
Proof.
  intros Hn.
  assert (Hall :
    forallb (fun k =>
               let m := Z.of_nat k in
               PyText.isdigit (PyText.str_of_int m)
               && match PyInt.of_str (PyText.str_of_int m) with
                  | Some v => v =? m
                  | None => false
                  end)
            (seq 1 256) = true) by (vm_compute; reflexivity).
  rewrite forallb_forall in Hall.
  specialize (Hall (Z.to_nat n)). cbv zeta in Hall.
  rewrite Z2Nat.id in Hall by lia.
  assert (Hin : In (Z.to_nat n) (seq 1 256)) by (apply in_seq; lia).
  apply Hall in Hin. apply andb_true_iff in Hin. destruct Hin as [Hd Hv].
  split; [exact Hd|].
  destruct (PyInt.of_str (PyText.str_of_int n)) as [v|]; [|discriminate].
  apply Z.eqb_eq in Hv. now subst.
Qed.



(** X20: a URL without an underscore is never accepted, whatever else it
    holds; in particular the URLs of the form
    [https://glyphs.had.sh/<galaxy>-<address>], which the bot itself prints,
    are rejected. *)
Theorem parse_glyph_url_needs_underscore url :
  PyText.char_in "_" url = false ->
  parse_glyph_url url = Ok None.
Proof.
  intros Hu. unfold parse_glyph_url.
  destruct (String.prefix glyph_url_prefix url); [|reflexivity].
  cbn [negb]. unfold PyText.remove_all.
  rewrite split_on_without; [reflexivity|].
  now apply char_in_remove_from.
Qed.

Lemma parse_glyph_url_needs_underscore_witness :
  parse_glyph_url "https://glyphs.had.sh/7-1A2B3C4D5E6F" = Ok None.
Proof.
  apply parse_glyph_url_needs_underscore. reflexivity.
Defined.

(** * The table of locations *)

Lemma string_length_app (a b : string) :
  String.length (a ++ b)%string = (String.length a + String.length b)%nat.
Proof. induction a as [|c a IH]; simpl; [reflexivity | now rewrite IH]. Qed.

Lemma string_app_assoc (a b c : string) :
  ((a ++ b) ++ c)%string = (a ++ b ++ c)%string.
Proof. induction a as [|x a IH]; simpl; [reflexivity | now rewrite IH]. Qed.

Lemma times_length c n : String.length (PyText.times c n) = n.
Proof. induction n as [|n IH]; simpl; congruence. Qed.

Lemma ljust_length s width :
  String.length (PyText.ljust s width) = Nat.max (String.length s) width.
Proof.
  unfold PyText.ljust. rewrite string_length_app, times_length. lia.
Qed.

Lemma ljust_prefix s width rest :
  String.prefix s (PyText.ljust s width ++ rest)%string = true.
Proof.
  apply prefix_spec. unfold PyText.ljust. rewrite string_app_assoc.
  now eexists.
Qed.

Lemma format_row_cells max_name loc :
  (String.length (entry_name loc) <= max_name)%nat ->
  fits_columns loc ->
  row_of (max_name + 33) loc (format_row max_name loc).
Proof.
  intros Hname [Hg [Ha Hr]].
  exists (PyText.ljust (entry_name loc) max_name ++ "  "
          ++ PyText.ljust (galaxy (entry_data loc)) 6 ++ "  "
          ++ PyText.ljust (address (entry_data loc)) 12 ++ "  "
          ++ PyText.ljust (PyText.str_of_int (num_returns (entry_data loc))) 7
          ++ "  ")%string.
  split; [|split].
  - unfold format_row. now rewrite !string_app_assoc.
  - rewrite !string_length_app, !ljust_length. simpl String.length. lia.
  - apply ljust_prefix.
Qed.

(** X21: the table is laid out in aligned columns.  For a non-empty list in
    which some name has at least four characters and every galaxy, address
    and counter fits its column (6, 12 and 7 characters), the output is a
    header line, a line of dashes and one row per record in the order given;
    with [m] the length of the longest name, the word [Description] of the
    header and the description of every row start at column [m + 33], every
    row starts with the record's name, and the dashes number [m + 45]. *)
Theorem format_locations_list_aligned locations :
  locations <> [] ->
  let m := list_max (map (fun loc => String.length (entry_name loc))
                         locations) in
  (4 <= m)%nat ->
  (forall loc, In loc locations -> fits_columns loc) ->
  exists titles rows,
    format_locations_list locations
    = (titles ++ "Description" ++ newline
       ++ PyText.times "-" (m + 45) ++ newline
       ++ PyText.join newline rows)%string
    /\ String.length titles = (m + 33)%nat
    /\ Forall2 (row_of (m + 33)) locations rows.
Proof.
  intros Hne m Hm Hfit.
  exists (PyText.ljust "Name" m ++ "  " ++ PyText.ljust "Galaxy" 6 ++ "  "
          ++ PyText.ljust "Address" 12 ++ "  " ++ PyText.ljust "Returns" 7
          ++ "  ")%string,
         (map (format_row m) locations).
  split; [|split].
  - destruct locations as [|loc rest]; [contradiction|].
    unfold format_locations_list. cbv zeta. fold m.
    replace (m + 6 + 12 + 7 + 20)%nat with (m + 45)%nat by lia.
    now rewrite !string_app_assoc.
  - rewrite !string_length_app, !ljust_length. simpl String.length. lia.
  - assert (Hnames : forall loc, In loc locations ->
                                 (String.length (entry_name loc) <= m)%nat).
    { intros loc Hin.
      assert (Hle : (m <= m)%nat) by lia. unfold m at 1 in Hle.
      apply list_max_le in Hle. rewrite Forall_forall in Hle.
      apply Hle. apply in_map_iff. now exists loc. }
    clear Hne Hm. revert Hnames Hfit. generalize m. clear m.
    induction locations as [|loc rest IH]; intros m Hnames Hfit;
      [constructor|].
    simpl map. constructor.
    + apply format_row_cells; [apply Hnames | apply Hfit]; now left.
    + apply IH; intros x Hx; [apply Hnames | apply Hfit]; now right.
Qed.

Lemma format_locations_list_aligned_witness :
  exists titles rows,
    format_locations_list (map entry_of atlas)
    = (titles ++ "Description" ++ newline
       ++ PyText.times "-" 58 ++ newline
       ++ PyText.join newline rows)%string
    /\ String.length titles = 46%nat
    /\ Forall2 (row_of 46) (map entry_of atlas) rows.
Proof.
  apply (format_locations_list_aligned (map entry_of atlas)).
  - discriminate.
  - vm_compute. repeat constructor.
  - intros loc Hin. simpl in Hin.
    destruct Hin as [<-|[<-|[<-|[]]]]; vm_compute; repeat constructor.
Defined.

(** * The forms *)

Lemma delete_middle (before after : Locations) (k : string) (v : Location) :
  ~ In k (PyDict.keys before) ->
  PyDictMore.delete (before ++ (k, v) :: after) k = before ++ after.
Proof.
  induction before as [|[k0 v0] before IH]; simpl; intros Hk.
  - now rewrite String.eqb_refl.
  - destruct (String.eqb_spec k k0) as [->|Hne]; [tauto|].
    rewrite IH; [reflexivity | tauto].
Qed.

Lemma upper_idem s : PyText.upper (PyText.upper s) = PyText.upper s.
Proof.
  induction s as [|c s IH]; simpl; [reflexivity|]. rewrite IH. f_equal.
  destruct c as [[] [] [] [] [] [] [] []]; reflexivity.
Qed.

Lemma upper_address_canonical a :
  validate_address (PyText.upper a) = true ->
  all_chars is_upper_hex_digit (PyText.upper a) = true.
Proof.
  rewrite validate_address_run, !andb_true_iff. intros [[_ Hhex] _].
  unfold all_chars in *. rewrite upper_chars in *.
  rewrite forallb_through_map in *.
  rewrite forallb_forall in Hhex |- *. intros c Hc.
  apply upper_hex_is_upper. rewrite <- is_hex_digit_upper. now apply Hhex.
Qed.

(** What a submitted Add form does, after the validation of its fields. *)
Lemma AddModal_on_submit_cases w locs nv gv av dv msg w' :
  loads w locs ->
  AddModal_on_submit nv gv av dv w = (Ok msg, w') ->
  (w' = w
   /\ String.prefix "Location added successfully:" msg = false)
  \/ exists n shown,
       check_galaxy_mention (galaxy_check_input gv)
       = Ok (true, Some shown, Some n)
       /\ galaxy_in_range n = true
       /\ validate_address (PyText.upper av) = true
       /\ ~ name_taken locs nv
       /\ ~ pair_key_taken locs (PyText.str_of_int n) (PyText.upper av)
       /\ w' = saved w
                 (locs ++ [(nv, new_location (PyText.str_of_int n)
                                  (PyText.upper av)
                                  (or_default dv "No description provided"))])
       /\ String.prefix "Location added successfully:" msg = true.
Proof.
  intros Hl. unfold AddModal_on_submit, bind at 1, lift.
  destruct (check_galaxy_mention_cases (galaxy_check_input gv))
    as [-> | [shown [n [-> Hn]]]].
  - intros [= <- <-]. left. split; reflexivity.
  - fold (galaxy_in_range n). rewrite Hn. cbn [negb].
    destruct (validate_address (PyText.upper av)) eqn:Hv; cbn [negb];
      [|intros [= <- <-]; left; split; reflexivity].
    unfold bind at 1. rewrite Hl.
    unfold bind at 1.
    rewrite (find_location_by_galaxy_address_run _ _ _ _ Hl).
    destruct (find _ (PyDict.values locs)); cbn [is_some];
      [intros [= <- <-]; left; split; reflexivity|].
    destruct (PyStr.mem _ (map PyStr.lower _)) eqn:Hname;
      [intros [= <- <-]; left; split; reflexivity|].
    unfold bind at 1.
    destruct (register_location nv (PyText.str_of_int n) (PyText.upper av)
                (or_default dv "No description provided") w)
      as [[[|]|e] w1] eqn:Hreg; [| |discriminate].
    + intros [= <- <-]. right. exists n, shown.
      destruct (register_location_success _ _ _ _ _ _ _ Hl Hreg)
        as [Hnt [Hpt ->]].
      repeat split; try assumption.
    + intros [= <- <-]. left.
      rewrite (register_location_failure _ _ _ _ _ _ _ Hl Hreg).
      split; reflexivity.
Qed.

(** X22: a submitted Add form reports success exactly when it has stored a
    record, and it stores nothing but validated, canonical records: the
    galaxy is the decimal form of an identifier between 1 and 256, the
    address is valid and written with the characters 0-9 and A-F, the counter
    is 0, and neither the name (up to letter case) nor the pair was in the
    registry; the new record goes last and all other records are as before.
    With any other answer the store is untouched. *)
Theorem AddModal_on_submit_effect w locs nv gv av dv msg w' :
  loads w locs ->
  AddModal_on_submit nv gv av dv w = (Ok msg, w') ->
  (w' = w
   /\ String.prefix "Location added successfully:" msg = false)
  \/ exists n added,
       1 <= n <= 256
       /\ galaxy added = PyText.str_of_int n
       /\ address added = PyText.upper av
       /\ validate_address (address added) = true
       /\ all_chars is_upper_hex_digit (address added) = true
       /\ num_returns added = 0
       /\ description added <> ""
       /\ ~ name_taken locs nv
       /\ ~ pair_taken locs (galaxy added) (address added)
       /\ w' = saved w (locs ++ [(nv, added)])
       /\ String.prefix "Location added successfully:" msg = true.
Proof.
  intros Hl Hrun.
  destruct (AddModal_on_submit_cases _ _ _ _ _ _ _ _ Hl Hrun)
    as [Hsame | [n [shown [_ [Hn [Hv [Hnt [Hpt [Hw Hmsg]]]]]]]]];
    [now left|].
  right.
  exists n, (new_location (PyText.str_of_int n) (PyText.upper av)
               (or_default dv "No description provided")).
  split; [now apply galaxy_in_range_bounds|].
  split; [reflexivity | split; [reflexivity|]].
  cbn [address galaxy num_returns description new_location].
  repeat split; try assumption.
  - now apply upper_address_canonical.
  - now destruct dv.
  - intros Hp. apply Hpt. now apply pair_taken_key.
Qed.

Lemma AddModal_on_submit_effect_witness :
  exists n added,
    1 <= n <= 256
    /\ galaxy added = PyText.str_of_int n
    /\ snd (AddModal_on_submit "Nova" "7" "4a2b3c4d5e6f" "" atlas_world)
       = saved atlas_world (atlas ++ [("Nova", added)]).
Proof.
  destruct (AddModal_on_submit_effect atlas_world atlas
              "Nova" "7" "4a2b3c4d5e6f" ""
              (match fst (AddModal_on_submit "Nova" "7" "4a2b3c4d5e6f" ""
                            atlas_world) with Ok m => m | Raise _ => "" end)
              (snd (AddModal_on_submit "Nova" "7" "4a2b3c4d5e6f" ""
                      atlas_world))
              eq_refl eq_refl)
    as [[_ Hmsg] | [n [added [Hn [Hg [_ [_ [_ [_ [_ [_ [_ [Hw _]]]]]]]]]]]]].
  - vm_compute in Hmsg. discriminate Hmsg.
  - exists n, added. repeat split; try assumption; apply Hn.
Defined.

Lemma first_name_with_pair_first g a locs name :
  first_name_with_pair g a locs = Some name ->
  exists before r after,
    locs = before ++ (name, r) :: after
    /\ has_pair g a r = true
    /\ forall x, In x before -> has_pair g a (snd x) = false.
Proof.
  unfold first_name_with_pair.
  destruct (find _ locs) as [[k r]|] eqn:Hf; [|discriminate].
  intros [= <-]. destruct (find_first _ _ _ Hf) as [before [after [Hl [Hb Hp]]]].
  now exists before, r, after.
Qed.

(** X23: a submitted Remove form that answers "removed" has deleted exactly
    one record, the first one in registry order whose galaxy and address are
    the validated galaxy identifier and the upper-cased address of the form,
    and has saved the rest unchanged and in order; it never removes a record
    filed under the empty name, and with any other answer the store is
    untouched. *)
Theorem RemoveModal_on_submit_effect w locs gv av msg w' :
  loads w locs ->
  NoDup (PyDict.keys locs) ->
  RemoveModal_on_submit gv av w = (Ok msg, w') ->
  (w' = w /\ String.prefix "Location '" msg = false)
  \/ exists n before name r after,
       1 <= n <= 256
       /\ locs = before ++ (name, r) :: after
       /\ galaxy r = PyText.str_of_int n
       /\ address r = PyText.upper av
       /\ (forall x, In x before ->
                     ~ (galaxy (snd x) = PyText.str_of_int n
                        /\ address (snd x) = PyText.upper av))
       /\ name <> ""
       /\ w' = saved w (before ++ after)
       /\ msg = ("Location '" ++ name ++ "' removed successfully.")%string.
Proof.
  intros Hl Hnd. unfold RemoveModal_on_submit, bind at 1, lift.
  destruct (check_galaxy_mention_cases (galaxy_check_input gv))
    as [-> | [shown [n [-> Hn]]]].
  - intros [= <- <-]. left. split; reflexivity.
  - fold (galaxy_in_range n). rewrite Hn. cbn [negb].
    destruct (validate_address (PyText.upper av)) eqn:Hv; cbn [negb];
      [|intros [= <- <-]; left; split; reflexivity].
    unfold bind at 1. rewrite Hl.
    destruct (first_name_with_pair _ _ locs) as [[|c rest]|] eqn:Hf;
      try (intros [= <- <-]; left; split; reflexivity).
    destruct (first_name_with_pair_first _ _ _ _ Hf)
      as [before [r [after [Hlocs [Hp Hb]]]]].
    apply has_pair_true in Hp. destruct Hp as [Hg Ha].
    unfold bind, save_locations.
    destruct (writable w); [|discriminate].
    intros [= <- <-]. right.
    exists n, before, (String c rest), r, after.
    split; [now apply galaxy_in_range_bounds|].
    repeat split; try assumption; try discriminate.
    + intros x Hx Hpair. apply has_pair_true in Hpair.
      rewrite (Hb x Hx) in Hpair. discriminate.
    + unfold saved. do 2 f_equal. rewrite Hlocs. apply delete_middle.
      rewrite Hlocs in Hnd. unfold PyDict.keys in *.
      rewrite map_app in Hnd. simpl in Hnd.
      apply NoDup_remove_2 in Hnd. intros Hin. apply Hnd.
      apply in_or_app. now left.
Qed.

Lemma RemoveModal_on_submit_effect_witness :
  exists before name r after,
    atlas = before ++ (name, r) :: after
    /\ snd (RemoveModal_on_submit "2" "2a2b3c4d5e6f" atlas_world)
       = saved atlas_world (before ++ after).
Proof.
  assert (Hnd : NoDup (PyDict.keys atlas)).
  { simpl. repeat constructor; simpl; intuition discriminate. }
  destruct (RemoveModal_on_submit_effect atlas_world atlas
              "2" "2a2b3c4d5e6f"
              "Location 'Crystal Cave' removed successfully."
              (snd (RemoveModal_on_submit "2" "2a2b3c4d5e6f" atlas_world))
              eq_refl Hnd eq_refl)
    as [[_ Hmsg] | [n [before [name [r [after [_ [Hl [_ [_ [_ [_ [Hw _]]]]]]]]]]]]].
  - vm_compute in Hmsg. discriminate Hmsg.
  - exists before, name, r, after. split; assumption.
Defined.

(** X24: a record stored by the Add form under a non-empty name is undone
    by the Remove form submitted with the same galaxy and address fields: the
    form answers that this name was removed, and the saved registry is the
    one from before the addition. *)
Theorem add_then_remove w locs nv gv av dv msg w' :
  loads w locs ->
  nv <> "" ->
  AddModal_on_submit nv gv av dv w = (Ok msg, w') ->
  w' <> w ->
  RemoveModal_on_submit gv av w'
  = (Ok ("Location '" ++ nv ++ "' removed successfully.")%string,
     saved w' locs).
Proof.
  intros Hl Hname Hadd Hchanged.
  destruct (AddModal_on_submit_cases _ _ _ _ _ _ _ _ Hl Hadd)
    as [[Hsame _] | [n [shown [Hc [Hn [Hv [Hnt [Hpt [-> _]]]]]]]]];
    [contradiction|].
  set (added := new_location (PyText.str_of_int n) (PyText.upper av)
                  (or_default dv "No description provided")).
  set (locs' := locs ++ [(nv, added)]).
  unfold RemoveModal_on_submit, bind at 1, lift. rewrite Hc.
  fold (galaxy_in_range n). rewrite Hn, Hv. cbn [negb].
  unfold bind at 1.
  change (load_locations (saved w locs')) with (Ok locs', saved w locs').
  assert (Hfirst : first_name_with_pair (PyText.str_of_int n)
                     (PyText.upper av) locs' = Some nv).
  { unfold first_name_with_pair, locs'.
    rewrite (find_last _ locs (nv, added)); [reflexivity | |].
    - intros [k r] Hin. simpl.
      destruct (has_pair (PyText.str_of_int n) (PyText.upper av) r) eqn:Hr;
        [|reflexivity].
      exfalso. apply Hpt. apply pair_taken_key. exists r.
      apply has_pair_true in Hr. split; [|exact Hr].
      apply in_map_iff. now exists (k, r).
    - simpl. apply has_pair_true. now split. }
  cbv beta iota. rewrite Hfirst. destruct nv as [|c rest]; [contradiction|].
  unfold locs'.
  replace (locs ++ [(String c rest, added)])
    with (locs ++ (String c rest, added) :: []) by reflexivity.
  rewrite delete_middle by now apply not_taken_fresh.
  rewrite app_nil_r. reflexivity.
Qed.

Lemma add_then_remove_witness :
  let w' := snd (AddModal_on_submit "Nova" "7" "4a2b3c4d5e6f" "" atlas_world) in
  RemoveModal_on_submit "7" "4a2b3c4d5e6f" w'
  = (Ok "Location 'Nova' removed successfully.", saved w' atlas).
Proof.
  cbv zeta.
  apply (add_then_remove atlas_world atlas "Nova" "7" "4a2b3c4d5e6f" ""
           (match fst (AddModal_on_submit "Nova" "7" "4a2b3c4d5e6f" ""
                         atlas_world) with Ok m => m | Raise _ => "" end)).
  - reflexivity.
  - discriminate.
  - reflexivity.
  - discriminate.
Defined.

(** ** The Add form on a canonical registry *)

Lemma app_separator_inj (sep : ascii) (a1 a2 b1 b2 : string) :
  PyText.char_in sep a1 = false ->
  PyText.char_in sep a2 = false ->
  (a1 ++ String sep b1)%string = (a2 ++ String sep b2)%string ->
  a1 = a2 /\ b1 = b2.
Proof.
  unfold PyText.char_in. revert a2.
  induction a1 as [|c1 a1 IH]; intros [|c2 a2]; simpl; intros H1 H2 Heq.
  - now injection Heq.
  - injection Heq as <- _. now rewrite Ascii.eqb_refl in H2.
  - injection Heq as -> _. now rewrite Ascii.eqb_refl in H1.
  - injection Heq as <- Heq.
    apply orb_false_iff in H1, H2.
    destruct (IH a2 (proj2 H1) (proj2 H2) Heq) as [-> ->]. now split.
Qed.

Lemma upper_of_lower_hex c :
  is_upper_hex_digit c = true -> PyText.upper_char (PyStr.lower_char c) = c.
Proof. destruct c as [[] [] [] [] [] [] [] []]; intros Hc; try reflexivity; discriminate Hc. Qed.

Lemma upper_of_lower_address a :
  all_chars is_upper_hex_digit a = true -> PyText.upper (PyStr.lower a) = a.
Proof.
  unfold all_chars. induction a as [|c a IH]; simpl; [reflexivity|].
  rewrite andb_true_iff. intros [Hc Ha].
  now rewrite (upper_of_lower_hex c Hc), (IH Ha).
Qed.

(** On digits and upper-case addresses the comparison key of
    [register_location] identifies the pair. *)
Lemma pair_key_canonical_inj g1 a1 g2 a2 :
  PyText.isdigit g1 = true -> PyText.isdigit g2 = true ->
  all_chars is_upper_hex_digit a1 = true ->
  all_chars is_upper_hex_digit a2 = true ->
  pair_key g1 a1 = pair_key g2 a2 ->
  g1 = g2 /\ a1 = a2.
Proof.
  intros Hg1 Hg2 Ha1 Ha2. unfold pair_key.
  apply isdigit_all in Hg1, Hg2. destruct Hg1 as [_ Hg1], Hg2 as [_ Hg2].
  rewrite !lower_app, (lower_digits _ Hg1), (lower_digits _ Hg2).
  change (PyStr.lower "-") with "-". cbn [String.append].
  intros Heq.
  apply app_separator_inj in Heq;
    [|exact (char_in_all _ "-"%char _ Hg1 eq_refl)
     |exact (char_in_all _ "-"%char _ Hg2 eq_refl)].
  destruct Heq as [-> Ha]. split; [reflexivity|].
  rewrite <- (upper_of_lower_address a1 Ha1),
          <- (upper_of_lower_address a2 Ha2).
  now rewrite Ha.
Qed.

(** X25: on a registry of canonical records the checks that the Add form
    makes itself cover the duplicate test of [register_location], so the form
    never answers ["Failed to add location."]; and the registry stored
    afterwards again holds canonical records only. *)
Theorem AddModal_on_canonical_registry w locs nv gv av dv msg w' :
  loads w locs ->
  Forall canonical (PyDict.values locs) ->
  AddModal_on_submit nv gv av dv w = (Ok msg, w') ->
  msg <> "Failed to add location."
  /\ exists locs',
       loads w' locs' /\ Forall canonical (PyDict.values locs').
Proof.
  intros Hl Hcan. unfold AddModal_on_submit, bind at 1, lift.
  assert (Hkeep : loads w locs /\ Forall canonical (PyDict.values locs))
    by now split.
  destruct (check_galaxy_mention_cases (galaxy_check_input gv))
    as [-> | [shown [n [-> Hn]]]].
  - intros [= <- <-]. split; [discriminate | now exists locs].
  - fold (galaxy_in_range n). rewrite Hn. cbn [negb].
    destruct (validate_address (PyText.upper av)) eqn:Hv; cbn [negb];
      [|intros [= <- <-]; split; [discriminate | now exists locs]].
    unfold bind at 1. rewrite Hl.
    unfold bind at 1.
    rewrite (find_location_by_galaxy_address_run _ _ _ _ Hl).
    destruct (find _ (PyDict.values locs)) eqn:Hfind; cbn [is_some];
      [intros [= <- <-]; split; [discriminate | now exists locs]|].
    destruct (PyStr.mem _ (map PyStr.lower _)) eqn:Hname;
      [intros [= <- <-]; split; [discriminate | now exists locs]|].
    pose proof (proj1 (galaxy_in_range_bounds n) Hn) as Hrange.
    destruct (galaxy_numbers_print n Hrange) as [Hdigits _].
    pose proof (upper_address_canonical av Hv) as Hupper.
    unfold bind at 1.
    destruct (register_location nv (PyText.str_of_int n) (PyText.upper av)
                (or_default dv "No description provided") w)
      as [[[|]|e] w1] eqn:Hreg; [| |discriminate].
    + intros [= <- <-]. split; [discriminate|].
      destruct (register_location_success _ _ _ _ _ _ _ Hl Hreg)
        as [_ [_ ->]].
      eexists. split; [reflexivity|].
      unfold PyDict.values. rewrite map_app. apply Forall_app.
      split; [exact Hcan|]. constructor; [|constructor].
      cbn [snd]. split; [|split]; cbn [galaxy address new_location].
      * now exists n.
      * exact Hv.
      * exact Hupper.
    + exfalso.
      rewrite (register_location_run _ _ _ _ _ _ Hl), Hname in Hreg.
      cbn [orb] in Hreg.
      destruct (PyStr.mem _ (map loc_pair_key _)) eqn:Hpair;
        [|destruct (writable w); discriminate Hreg].
      apply pair_key_taken_mem in Hpair. destruct Hpair as [r [Hin Hkey]].
      rewrite Forall_forall in Hcan.
      destruct (Hcan r Hin) as [[m [Hm Hg]] [_ Hr]].
      destruct (galaxy_numbers_print m Hm) as [Hdm _].
      unfold loc_pair_key in Hkey. rewrite Hg in Hkey.
      apply pair_key_canonical_inj in Hkey; try assumption.
      destruct Hkey as [Hgeq Haeq].
      assert (Hhas : has_pair (PyText.str_of_int n) (PyText.upper av) r
                     = true).
      { apply has_pair_true. split; [now rewrite Hg | exact Haeq]. }
      now rewrite (find_none _ _ Hfind r Hin) in Hhas.
Qed.

Lemma AddModal_on_canonical_registry_witness :
  exists locs',
    loads (snd (AddModal_on_submit "Nova" "7" "4a2b3c4d5e6f" "" atlas_world))
          locs'
    /\ Forall canonical (PyDict.values locs').
Proof.
  assert (Hcan : Forall canonical (PyDict.values atlas)).
  { repeat constructor; cbn [snd galaxy address colony cave garden].
    - exists 2. split; [lia | reflexivity].
    - exists 2. split; [lia | reflexivity].
    - exists 1. split; [lia | reflexivity]. }
  destruct (AddModal_on_canonical_registry atlas_world atlas
              "Nova" "7" "4a2b3c4d5e6f" ""
              (match fst (AddModal_on_submit "Nova" "7" "4a2b3c4d5e6f" ""
                            atlas_world) with Ok m => m | Raise _ => "" end)
              (snd (AddModal_on_submit "Nova" "7" "4a2b3c4d5e6f" ""
                      atlas_world))
              eq_refl Hcan eq_refl) as [_ Hex].
  exact Hex.
Defined.

(** ** The Modify form *)

Lemma NoDup_map_injective {A B} (f : A -> B) (l : list A) (x y : A) :
  NoDup (map f l) -> In x l -> In y l -> f x = f y -> x = y.
Proof.
  induction l as [|a l IH]; simpl; intros Hnd Hx Hy Hf; [destruct Hx|].
  inversion Hnd as [|? ? Ha Hl]; subst.
  destruct Hx as [->|Hx], Hy as [->|Hy]; try reflexivity.
  - exfalso. apply Ha. rewrite Hf. now apply in_map.
  - exfalso. apply Ha. rewrite <- Hf. now apply in_map.
  - now apply IH.
Qed.

Section ModifyFormFacts.

Context `{Scorer}.

Lemma identify_name identifier locs name :
  identify identifier locs = inr (Some name) ->
  In name (PyDict.keys locs).
Proof.
  unfold identify.
  destruct (validate_address (PyText.upper identifier)).
  - intros [= Hf]. unfold first_name_with_address in Hf.
    destruct (find _ locs) as [[k r]|] eqn:Hfind; [|discriminate].
    injection Hf as <-. apply find_some in Hfind.
    apply in_map_iff. exists (k, r). split; [reflexivity | apply Hfind].
  - cbv zeta.
    destruct (length (identifier_matches identifier locs) =? 1)%nat.
    + intros [= Hf].
      destruct (identifier_matches identifier locs) as [|[k sc] rest] eqn:Hm;
        [discriminate|].
      injection Hf as <-.
      assert (Hin : In (k, sc) (identifier_matches identifier locs))
        by (rewrite Hm; now left).
      unfold identifier_matches in Hin.
      apply (Permutation_in _ (sorted_desc_perm snd _)) in Hin.
      apply filter_In in Hin. destruct Hin as [Hin _].
      apply in_map_iff in Hin. destruct Hin as [n [[= <- _] Hn]]. exact Hn.
    + destruct (_ && _)%bool; [discriminate|].
      destruct (5 <? _)%nat; discriminate.
Qed.

Lemma submit_modification_run w name current ng nd :
  submit_modification name current ng nd w =
  match modify_location name (galaxy current) (address current)
          (Some ng) (Some (address current))
          (Some (or_default nd (description current))) w with
  | (Ok true, w1) =>
      (Ok ("Location '" ++ name ++ "' modified successfully.")%string, w1)
  | (Ok false, w1) =>
      (Ok "Failed to modify location. Check old values match.", w1)
  | (Raise e, w1) => (Raise e, w1)
  end.
Proof.
  unfold submit_modification, bind.
  destruct (modify_location _ _ _ _ _ _ w) as [[[|]|e] w1]; reflexivity.
Qed.

(** What [submit_modification] does for a name of the registry. *)
Lemma submit_modification_cases w locs name current ng nd msg w' :
  loads w locs ->
  NoDup (map PyStr.lower (PyDict.keys locs)) ->
  In name (PyDict.keys locs) ->
  PyDict.get locs name = Some current ->
  submit_modification name current ng nd w = (Ok msg, w') ->
  (PyStr.lower name <> name
   /\ w' = w
   /\ msg = "Failed to modify location. Check old values match.")
  \/ (PyStr.lower name = name
      /\ w' = saved w
                (PyDict.set locs name
                   (modified current (Some ng) (Some (address current))
                      (Some (or_default nd (description current)))))
      /\ msg = ("Location '" ++ name ++ "' modified successfully.")%string).
Proof.
  intros Hl Hnd Hin Hg. rewrite submit_modification_run.
  rewrite (modify_location_run _ _ _ _ _ _ _ _ Hl).
  destruct (PyDict.get locs (PyStr.lower name)) as [loc|] eqn:Hlow.
  - assert (Heq : PyStr.lower name = name).
    { apply (NoDup_map_injective PyStr.lower (PyDict.keys locs));
        [exact Hnd | | exact Hin | apply lower_idem].
      apply get_In in Hlow. apply in_map_iff.
      now exists (PyStr.lower name, loc). }
    rewrite Heq in Hlow |- *. rewrite Hg in Hlow. injection Hlow as <-.
    rewrite !String.eqb_refl. cbn [negb orb supplied is_some].
    destruct (writable w); [|discriminate].
    intros [= <- <-]. right. repeat split.
  - intros [= <- <-]. left. repeat split.
    intros Heq. rewrite Heq, Hg in Hlow. discriminate.
Qed.

(** X26: the Modify form changes at most one record, and only a record
    whose name is its own lower-case form: when the store changes, the
    answer is "modified successfully", the address, the counter and the
    position of that record and all other records are as before, the
    description is the new one (the old one for a blank field) and the
    galaxy is the old one for a blank field or else the decimal form of an
    identifier between 1 and 256.  With every other answer the store is
    untouched. *)
Theorem ModifyModal_on_submit_effect w locs idv ngv ndv msg w' :
  loads w locs ->
  NoDup (map PyStr.lower (PyDict.keys locs)) ->
  ModifyModal_on_submit idv ngv ndv w = (Ok msg, w') ->
  w' = w
  \/ exists name before loc after loc',
       PyStr.lower name = name
       /\ locs = before ++ (name, loc) :: after
       /\ address loc' = address loc
       /\ num_returns loc' = num_returns loc
       /\ description loc' = or_default ndv (description loc)
       /\ (ngv = "" -> galaxy loc' = galaxy loc)
       /\ (ngv <> "" ->
           exists n, 1 <= n <= 256 /\ galaxy loc' = PyText.str_of_int n)
       /\ w' = saved w (before ++ (name, loc') :: after)
       /\ msg = ("Location '" ++ name ++ "' modified successfully.")%string.
Proof.
  intros Hl Hnd. unfold ModifyModal_on_submit, bind at 1. rewrite Hl.
  destruct (identify idv locs) as [response | [name|]] eqn:Hid;
    try (intros [= <- <-]; now left).
  pose proof (identify_name _ _ _ Hid) as Hin.
  destruct name as [|c rest]; [intros [= <- <-]; now left|].
  set (name := String c rest) in *.
  destruct (In_keys_get _ _ Hin) as [current Hg].
  unfold bind at 1, getitem. rewrite Hg. cbn [ret].
  destruct (get_split _ _ _ Hg) as [before [after [Hlocs Hpre]]].
  assert (Hdone : forall ng,
             (ngv = "" -> ng = galaxy current) ->
             (ngv <> "" -> exists n, 1 <= n <= 256 /\ ng = PyText.str_of_int n) ->
             submit_modification name current ng ndv w = (Ok msg, w') ->
             w' = w
             \/ exists name before loc after loc',
                  PyStr.lower name = name
                  /\ locs = before ++ (name, loc) :: after
                  /\ address loc' = address loc
                  /\ num_returns loc' = num_returns loc
                  /\ description loc' = or_default ndv (description loc)
                  /\ (ngv = "" -> galaxy loc' = galaxy loc)
                  /\ (ngv <> "" ->
                      exists n, 1 <= n <= 256
                                /\ galaxy loc' = PyText.str_of_int n)
                  /\ w' = saved w (before ++ (name, loc') :: after)
                  /\ msg = ("Location '" ++ name
                            ++ "' modified successfully.")%string).
  { intros ng Hblank Hgiven Hrun.
    destruct (submit_modification_cases _ _ _ _ _ _ _ _ Hl Hnd Hin Hg Hrun)
      as [[_ [-> _]] | [Hlow [-> ->]]]; [now left|].
    right. exists name, before, current, after.
    exists (modified current (Some ng) (Some (address current))
              (Some (or_default ndv (description current)))).
    split; [exact Hlow|]. split; [exact Hlocs|].
    rewrite Hlocs at 1. rewrite set_split by exact Hpre.
    repeat split; try reflexivity; assumption. }
  destruct ngv as [|g ngv'].
  - apply Hdone; [reflexivity | intros Hne; now contradiction Hne].
  - unfold bind at 1, lift.
    destruct (check_galaxy_mention_cases
                (galaxy_check_input (String g ngv')))
      as [-> | [shown [n [-> Hn]]]]; [intros [= <- <-]; now left|].
    fold (galaxy_in_range n). rewrite Hn. cbn [negb].
    apply Hdone; [discriminate|].
    intros _. exists n. split; [now apply galaxy_in_range_bounds | reflexivity].
Qed.

(** X27: a location whose stored name contains an upper-case letter cannot
    be modified through the form.  When the record is identified by its
    address and its name is not its own lower-case form, the form answers
    ["Failed to modify location. Check old values match."] (or rejects the
    new galaxy) and the store is untouched. *)
Theorem ModifyModal_mixed_case_name w locs idv ngv ndv name :
  loads w locs ->
  NoDup (map PyStr.lower (PyDict.keys locs)) ->
  validate_address (PyText.upper idv) = true ->
  first_name_with_address (PyText.upper idv) locs = Some name ->
  PyStr.lower name <> name ->
  exists msg,
    ModifyModal_on_submit idv ngv ndv w = (Ok msg, w)
    /\ (msg = "Failed to modify location. Check old values match."
        \/ (ngv <> ""
            /\ msg = "New galaxy must be 1-256 or a valid name.")).
Proof.
  intros Hl Hnd Hv Hfirst Hmixed.
  assert (Hid : identify idv locs = inr (Some name))
    by (unfold identify; now rewrite Hv, Hfirst).
  pose proof (identify_name _ _ _ Hid) as Hin.
  destruct (In_keys_get _ _ Hin) as [current Hg].
  assert (Hfail : forall ng,
             submit_modification name current ng ndv w
             = (Ok "Failed to modify location. Check old values match.", w)).
  { intros ng. rewrite submit_modification_run.
    rewrite (modify_location_not_found _ locs); [reflexivity | exact Hl |].
    intros Hlow. apply Hmixed.
    apply (NoDup_map_injective PyStr.lower (PyDict.keys locs));
      [exact Hnd | exact Hlow | exact Hin | apply lower_idem]. }
  unfold ModifyModal_on_submit, bind at 1. rewrite Hl, Hid.
  destruct name as [|c rest]; [now contradiction Hmixed|].
  unfold bind at 1, getitem. rewrite Hg. cbn [ret].
  destruct ngv as [|g ngv'].
  - eexists. split; [apply Hfail | now left].
  - unfold bind at 1, lift.
    destruct (check_galaxy_mention_cases
                (galaxy_check_input (String g ngv')))
      as [-> | [shown [n [-> Hn]]]].
    + eexists. split; [reflexivity|]. right. split; [discriminate | reflexivity].
    + fold (galaxy_in_range n). rewrite Hn. cbn [negb].
      eexists. split; [apply Hfail | now left].
Qed.

End ModifyFormFacts.

Lemma ModifyModal_on_submit_effect_witness :
  exists name before loc after loc',
    lower_atlas = before ++ (name, loc) :: after
    /\ address loc' = address loc
    /\ snd (@ModifyModal_on_submit RefScorer.scorer "eden" "5" ""
              {| file := Stored lower_atlas; writable := true; writes := 0 |})
       = saved {| file := Stored lower_atlas; writable := true; writes := 0 |}
               (before ++ (name, loc') :: after).
Proof.
  assert (Hnd : NoDup (map PyStr.lower (PyDict.keys lower_atlas))).
  { simpl. repeat constructor; simpl; intuition discriminate. }
  destruct (@ModifyModal_on_submit_effect RefScorer.scorer
              {| file := Stored lower_atlas; writable := true; writes := 0 |}
              lower_atlas "eden" "5" ""
              "Location 'eden prime' modified successfully."
              (snd (@ModifyModal_on_submit RefScorer.scorer "eden" "5" ""
                      {| file := Stored lower_atlas; writable := true;
                         writes := 0 |}))
              eq_refl Hnd)
    as [Hsame | [name [before [loc [after [loc' Hall]]]]]].
  - vm_compute. reflexivity.
  - vm_compute in Hsame. discriminate Hsame.
  - destruct Hall as [_ [Hl [Ha [_ [_ [_ [_ [Hw _]]]]]]]].
    exists name, before, loc, after, loc'. repeat split; assumption.
Defined.

Lemma ModifyModal_mixed_case_name_witness :
  @ModifyModal_on_submit RefScorer.scorer "3a2b3c4d5e6f" "" "new text"
    atlas_world
  = (Ok "Failed to modify location. Check old values match.", atlas_world).
Proof.
  assert (Hnd : NoDup (map PyStr.lower (PyDict.keys atlas))).
  { simpl. repeat constructor; simpl; intuition discriminate. }
  destruct (@ModifyModal_mixed_case_name RefScorer.scorer atlas_world atlas
              "3a2b3c4d5e6f" "" "new text" "Eden Prime"
              eq_refl Hnd eq_refl eq_refl)
    as [msg [Hrun [-> | [Hne _]]]].
  - discriminate.
  - exact Hrun.
  - now contradiction Hne.
Defined.

(** * The result picker and the command *)

Lemma nth_error_firstn_lt {A} (l : list A) :
  forall n i, (i < n)%nat -> nth_error (firstn n l) i = nth_error l i.
Proof.
  induction l as [|x l IH]; intros n i Hi.
  - now rewrite firstn_nil.
  - destruct n as [|n]; [lia|]. destruct i as [|i]; [reflexivity|].
    simpl. apply IH. lia.
Qed.

(** X28: the result picker never indexes outside the results it shows.  A
    typed number [k] selects the [k]-th of the first ten results exactly
    when [1 <= k <= min 10 (number of results)]; zero, negative and too large
    numbers are answered with "Invalid choice", text that is not a number
    with "Please enter a valid number", and no input raises. *)
Theorem PickResultModal_on_submit_spec results choice_value :
  exists msg,
    PickResultModal_on_submit results choice_value = Ok msg
    /\ (PyInt.of_str choice_value = None ->
        msg = "Please enter a valid number.")
    /\ forall k,
         PyInt.of_str choice_value = Some k ->
         (1 <= k <= Z.of_nat (Nat.min 10 (length results)) ->
          exists r,
            nth_error results (Z.to_nat (k - 1)) = Some r
            /\ msg = ("Selected: " ++ result_title r ++ newline
                      ++ description (entry_data r))%string)
         /\ (~ 1 <= k <= Z.of_nat (Nat.min 10 (length results)) ->
             msg = "Invalid choice. Please pick a number within the range.").
Proof.
  unfold PickResultModal_on_submit.
  destruct (PyInt.of_str choice_value) as [typed|].
  - rewrite length_firstn.
    destruct ((0 <=? typed - 1)
              && (typed - 1 <? Z.of_nat (Nat.min 10 (length results))))
      eqn:Hr.
    + apply andb_true_iff in Hr. destruct Hr as [H0 H1].
      apply Z.leb_le in H0. apply Z.ltb_lt in H1.
      assert (Hlt : (Z.to_nat (typed - 1) < Nat.min 10 (length results))%nat)
        by lia.
      rewrite nth_error_firstn_lt by lia.
      destruct (nth_error results (Z.to_nat (typed - 1))) as [r|] eqn:Hnth.
      * eexists. split; [reflexivity|]. split; [discriminate|].
        intros k [= <-]. split; [|lia].
        intros _. now exists r.
      * apply nth_error_None in Hnth. lia.
    + eexists. split; [reflexivity|]. split; [discriminate|].
      intros k [= <-]. split; [|reflexivity].
      intros Hk. apply andb_false_iff in Hr.
      destruct Hr as [Hr|Hr]; [apply Z.leb_gt in Hr | apply Z.ltb_ge in Hr];
        lia.
  - eexists. split; [reflexivity|]. split; [reflexivity|]. discriminate.
Qed.

Lemma PickResultModal_on_submit_spec_witness :
  exists r,
    nth_error (map entry_of atlas) 1 = Some r
    /\ PickResultModal_on_submit (map entry_of atlas) " 2 "
       = Ok ("Selected: " ++ result_title r ++ newline
             ++ description (entry_data r))%string.
Proof.
  destruct (PickResultModal_on_submit_spec (map entry_of atlas) " 2 ")
    as [msg [Hrun [_ Hk]]].
  destruct (proj1 (Hk 2 eq_refl)) as [r [Hnth Hmsg]].
  - vm_compute. split; discriminate.
  - exists r. split; [exact Hnth|]. now rewrite Hrun, Hmsg.
Defined.

Lemma py_int_or_zero num w :
  try_except (py_int num) int_handles (fun _ => ret 0) w
  = (Ok (int_or_zero num), w).
Proof.
  unfold try_except, py_int. destruct num as [|z|s]; cbn; try reflexivity.
  destruct (PyInt.of_str s); reflexivity.
Qed.

Lemma list_top_locations_world num w r w' :
  list_top_locations num w = (r, w') -> w' = w.
Proof.
  unfold list_top_locations, bind at 1. rewrite py_int_or_zero.
  unfold bind. pose proof (load_world w) as Hw.
  destruct (load_locations w) as [[locs|e] w1]; simpl in Hw; subst w1;
    now intros [= _ <-].
Qed.

Section CommandFacts.

Context `{Scorer}.

Lemma search_run search_term w r w' :
  search search_term w = (Ok r, w') ->
  exists name_result,
    find_location_in_string (PyStr search_term) 80 w = (Ok name_result, w')
    /\ forall form, r <> OpenForm form.
Proof.
  unfold search, bind at 1.
  destruct (find_location_in_string (PyStr search_term) 80 w)
    as [[name_result|e] w1]; [|discriminate].
  unfold bind. pose proof (load_world w1) as Hw.
  destruct (load_locations w1) as [[locs|e] w2]; [|discriminate].
  simpl in Hw. subst w2.
  destruct (extend_results _ _) as [|result [|second more]];
    intros [= <- <-]; exists name_result; (split; [reflexivity | discriminate]).
Qed.

Lemma run_command_run cmd w r w' :
  run_command cmd w = (Ok r, w') ->
  w' = w
  /\ (PyStr.mem cmd ["remove"; "modify"; "add"] = false ->
      forall form, r <> OpenForm form).
Proof.
  unfold run_command, PyStr.mem. cbn [existsb].
  destruct (cmd =? "find")%string;
    [intros [= <- <-]; split; [reflexivity | discriminate]|].
  destruct (cmd =? "top")%string.
  { unfold bind.
    destruct (list_top_locations (PyInt 10) w) as [[top|e] w1] eqn:Htop;
      [|discriminate].
    apply list_top_locations_world in Htop. subst w1.
    intros [= <- <-]. split; [reflexivity | discriminate]. }
  destruct (cmd =? "remove")%string;
    [intros [= <- <-]; split; [reflexivity | discriminate]|].
  destruct (cmd =? "modify")%string;
    [intros [= <- <-]; split; [reflexivity | discriminate]|].
  destruct (cmd =? "add")%string;
    [intros [= <- <-]; split; [reflexivity | discriminate]|].
  destruct (cmd =? "help")%string;
    intros [= <- <-]; split; try reflexivity; discriminate.
Qed.

(** X29: the forms are reserved to privileged users.  For a user without
    the privileged role the command never opens the Add, Remove or Modify
    form, whatever the action text and the scorers; when the first word is
    taken for one of these three commands the answer is the refusal and the
    store is untouched. *)
Theorem glyphs_authorization roles action w r w' :
  ~ In PRIVILEGED_ROLE_ID roles ->
  glyphs roles action w = (Ok r, w') ->
  (forall form, r <> OpenForm form)
  /\ (forall first more,
         split_first (PyStr.strip action) = first :: more ->
         is_restricted (matched_command (PyStr.lower first)) = true ->
         r = Message "You are not authorized to perform this action."
         /\ w' = w).
Proof.
  intros Hrole. unfold glyphs.
  assert (Hany : existsb (fun role => role =? PRIVILEGED_ROLE_ID) roles
                 = false).
  { destruct (existsb _ roles) eqn:He; [|reflexivity].
    apply existsb_exists in He. destruct He as [role [Hin Heq]].
    apply Z.eqb_eq in Heq. subst role. contradiction. }
  destruct (split_first (PyStr.strip action)) as [|first more];
    [discriminate|].
  rewrite Hany. cbn [negb]. rewrite andb_true_r.
  destruct (is_restricted (matched_command (PyStr.lower first))) eqn:Hres.
  - intros [= <- <-]. split; [discriminate|].
    intros first' more' [= <- <-] _. now split.
  - intros Hrun.
    split; [|intros first' more' [= <- <-] Ht; rewrite Hres in Ht;
             discriminate Ht].
    destruct more as [|second more].
    + destruct (matched_command (PyStr.lower first)) as [cmd|] eqn:Hcmd.
      * apply run_command_run in Hrun. apply (proj2 Hrun). exact Hres.
      * apply search_run in Hrun. destruct Hrun as [_ [_ Hno]]. exact Hno.
    + apply search_run in Hrun. destruct Hrun as [_ [_ Hno]]. exact Hno.
Qed.

(** X30: the command never adds, removes or edits a record.  Whatever the
    action and the roles, after a call that returns the store is either
    exactly as before or differs in one thing only: one record, found by the
    resolver, has its [num_returns] incremented by one (and the registry was
    saved once). *)
Theorem glyphs_effect roles action w r w' :
  glyphs roles action w = (Ok r, w') ->
  w' = w
  \/ exists pre name loc post,
       file w = Stored (pre ++ (name, loc) :: post)
       /\ file w' = Stored (pre ++ (name, bump loc) :: post)
       /\ writes w' = S (writes w).
Proof.
  assert (Hsearch : forall term,
             search term w = (Ok r, w') ->
             w' = w
             \/ exists pre name loc post,
                  file w = Stored (pre ++ (name, loc) :: post)
                  /\ file w' = Stored (pre ++ (name, bump loc) :: post)
                  /\ writes w' = S (writes w)).
  { intros term Hrun. apply search_run in Hrun.
    destruct Hrun as [name_result [Hfind _]].
    pose proof (find_location_in_string_outcome (PyStr term) 80 w) as Hout.
    rewrite Hfind in Hout. unfold find_outcome in Hout.
    destruct name_result as [found|]; [|now left].
    destruct Hout as [pre [name [loc [post [Hf [_ [-> [_ [Hf' Hw]]]]]]]]].
    right. now exists pre, name, loc, post. }
  unfold glyphs.
  destruct (split_first (PyStr.strip action)) as [|first more];
    [discriminate|].
  destruct (_ && _)%bool; [intros [= _ <-]; now left|].
  destruct more as [|second more].
  - destruct (matched_command (PyStr.lower first)) as [cmd|].
    + intros Hrun. apply run_command_run in Hrun. left. apply Hrun.
    + apply Hsearch.
  - apply Hsearch.
Qed.

End CommandFacts.

Lemma glyphs_authorization_witness :
  @glyphs RefScorer.scorer [42] " add " atlas_world
  = (Ok (Message "You are not authorized to perform this action."),
     atlas_world).
Proof.
  assert (Hrole : ~ In PRIVILEGED_ROLE_ID [42]).
  { simpl. intros [Heq|[]]. discriminate Heq. }
  destruct (@glyphs_authorization RefScorer.scorer [42] " add " atlas_world
              (Message "You are not authorized to perform this action.")
              atlas_world Hrole) as [_ Hrefused].
  - vm_compute. reflexivity.
  - vm_compute. reflexivity.
Defined.

Lemma glyphs_effect_witness :
  exists pre name loc post,
    atlas = pre ++ (name, loc) :: post
    /\ file (snd (@glyphs RefScorer.scorer [] "find eden" atlas_world))
       = Stored (pre ++ (name, bump loc) :: post).
Proof.
  destruct (@glyphs_effect RefScorer.scorer [] "find eden" atlas_world
              (match fst (@glyphs RefScorer.scorer [] "find eden" atlas_world)
               with Ok reply => reply | Raise _ => NoReply end)
              (snd (@glyphs RefScorer.scorer [] "find eden" atlas_world)))
    as [Hsame | [pre [name [loc [post [Hf [Hf' _]]]]]]].
  - vm_compute. reflexivity.
  - vm_compute in Hsame. discriminate Hsame.
  - exists pre, name, loc, post. split; [|exact Hf'].
    simpl in Hf. now injection Hf.
Defined.
